(** * ScaleGraph Kademlia core: a shallow embedding and its properties

    The development follows the Go package [kademlia]:
    - [util.go]: 160-bit identifiers, XOR distance, the bubble sort
      [SortContactsByDistance] and [RemoveDuplicateContacts], [RandU32];
    - the network adapter: the pending table ([Add], [RetrieveChan],
      [DropChan]), [Send] and [route];
    - the protocol: [findNodeLoop], [FindAccount], [findAccountQuery];
    - [simnet.go]: [randomNode], [DropRoll] and [Route].

    Go slices are lists indexed with stdpp's lookup; an index that is out of
    range makes the Go runtime panic, which the model renders as [None].
    Go maps are [gmap]s.  Channels are identified by the order in which
    [make] allocated them; a goroutine that waits on a channel nobody will
    write to is rendered by an explicit [Blocks] outcome. *)

From Stdlib Require Import NArith QArith Qcanon Sorted Permutation.
From stdpp Require Import base option numbers list sorting gmap well_founded.

(** ** Identifiers and the XOR metric (util.go) *)

(** [[5]uint32]: five 32-bit words, most significant first.  The words are
    kept in [N]; XOR and unsigned comparison never leave the 32-bit range. *)
Definition KadID : Type := (N * N * N * N * N)%type.

(** [[4]byte] *)
Definition Addr : Type := (N * N * N * N)%type.

Definition words (x : KadID) : list N :=
  let '(a, b, c, d, e) := x in [a; b; c; d; e].

(** [RelativeDistance]: word-wise XOR. *)
Definition RelativeDistance (nodeA nodeB : KadID) : KadID :=
  let '(a0, a1, a2, a3, a4) := nodeA in
  let '(b0, b1, b2, b3, b4) := nodeB in
  (N.lxor a0 b0, N.lxor a1 b1, N.lxor a2 b2, N.lxor a3 b3, N.lxor a4 b4).

(** The loop of [CloserNode] over the words of the two distances: the first
    index at which they differ decides; equal distances give [false]. *)
Fixpoint closerFrom (distA distB : list N) : bool :=
  match distA, distB with
  | x :: distA', y :: distB' =>
      if (x <? y)%N then true
      else if (y <? x)%N then false
      else closerFrom distA' distB'
  | _, _ => false
  end.

Definition CloserNode (nodeA nodeB target : KadID) : bool :=
  closerFrom (words (RelativeDistance nodeA target))
             (words (RelativeDistance nodeB target)).

Definition EquiDistantNode (nodeA nodeB target : KadID) : bool :=
  bool_decide (RelativeDistance nodeA target = RelativeDistance nodeB target).

(** The loop of [LargerNode]. *)
Fixpoint largerFrom (nodeA nodeB : list N) : bool :=
  match nodeA, nodeB with
  | x :: nodeA', y :: nodeB' =>
      if (y <? x)%N then true
      else if (x <? y)%N then false
      else largerFrom nodeA' nodeB'
  | _, _ => false
  end.

Definition LargerNode (nodeA nodeB : KadID) : bool :=
  largerFrom (words nodeA) (words nodeB).

(** ** Contacts *)

(** Modelled from the spec: the struct [Contact] is declared in a file that
    is not part of the sources at hand; it binds an identifier to an address
    and is read through the accessors [ID()] and [IP()]. *)
Record Contact : Type := NewContact { IP : Addr; ID : KadID }.

#[global] Instance Contact_eq_dec : EqDecision Contact.
Proof. solve_decision. Defined.

(** ** Loops *)

(** [for k := start; k < start + count; k++ { s = body(s, k) }], where the
    body may panic. *)
Fixpoint forRange {S : Type} (body : S → nat → option S)
    (start count : nat) (s : S) : option S :=
  match count with
  | O => Some s
  | Datatypes.S count' =>
      match body s start with
      | Some s' => forRange body (Datatypes.S start) count' s'
      | None => None
      end
  end.

(** ** SortContactsByDistance (util.go) *)

(** The test of the inner loop body: swap when B is closer to the target
    than A, or when both are equidistant and A is the larger identifier. *)
Definition swapNeeded (target : KadID) (nodeA nodeB : Contact) : bool :=
  let sortCriterion := CloserNode (ID nodeB) (ID nodeA) target in
  if sortCriterion then true
  else if EquiDistantNode (ID nodeA) (ID nodeB) target
       then LargerNode (ID nodeA) (ID nodeB)
       else false.

(** One execution of the inner loop body at index [j]. *)
Definition sortStep (target : KadID) (input : list Contact) (j : nat)
    : option (list Contact) :=
  match input !! j, input !! (j + 1)%nat with
  | Some nodeA, Some nodeB =>
      if swapNeeded target nodeA nodeB
      then Some (<[(j + 1)%nat := nodeA]> (<[j := nodeB]> input))
      else Some input
  | _, _ => None
  end.

(** The inner loop [for j := 0; j < len(input)-1; j++].  The body keeps the
    length, so the bound is the one computed on entry. *)
Definition sortPass (target : KadID) (input : list Contact)
    : option (list Contact) :=
  forRange (sortStep target) 0 (length input - 1) input.

(** The outer loop [for i := 1; i < len(input); i++]. *)
Definition SortContactsByDistance (input : list Contact) (target : KadID)
    : option (list Contact) :=
  forRange (λ s _, sortPass target s) 1 (length input - 1) input.

(** ** RemoveDuplicateContacts (util.go) *)

(** The loop body at index [i]: when the identifiers at [i] and [i-1] agree,
    the slice becomes [append(set[:i-1], set[i:]...)]. *)
Definition dedupStep (set : list Contact) (i : nat) : option (list Contact) :=
  match set !! i, set !! (i - 1)%nat with
  | Some a, Some b =>
      if bool_decide (ID a = ID b)
      then Some (take (i - 1) set ++ drop i set)
      else Some set
  | _, _ => None
  end.

(** [for i := len(set) - 1; i > 0; i--]: the start index is computed once. *)
Fixpoint dedupLoop (i : nat) (set : list Contact) : option (list Contact) :=
  match i with
  | O => Some set
  | Datatypes.S i' =>
      match dedupStep set i with
      | Some set' => dedupLoop i' set'
      | None => None
      end
  end.

Definition RemoveDuplicateContacts (set : list Contact)
    : option (list Contact) :=
  dedupLoop (length set - 1) set.

(** ** RPC frames *)

(** Modelled from the spec: the tag [ENTER], which [Simnet.Route] tests and
    the [rpc.go] at hand does not declare; the other tags are those of
    [rpc.go], in its order. *)
Inductive cmd : Type :=
  | PING | STORE_WALLET | FIND_NODE | FIND_WALLET | PROPOSE_TRANSACTION
  | ACCEPT_TRANSACTION | SEND | SUBMIT_WALLET | SHOW_WALLET | ENTER.

#[global] Instance cmd_eq_dec : EqDecision cmd.
Proof. solve_decision. Defined.

(** Modelled from the spec: the field [findAccountSucc] (the reply payload
    of a record lookup), which [findAccountQuery] reads and the [rpc.go] at
    hand does not declare.  The other fields are those of the [RPC] struct
    of [rpc.go], under the lower-case names by which [Send], [route], the
    protocol and [Simnet.Route] read and write them. *)
Module RPC.

Record t : Type := mk {
  id : KadID;
  cmd : cmd;
  response : bool;
  sender : Contact;
  receiver : Addr;
  findNodeTarget : KadID;
  foundNodes : list Contact;
  findAccountSucc : bool
}.

Definition withID (rpc : t) (i : KadID) : t :=
  mk i (cmd rpc) (response rpc) (sender rpc) (receiver rpc)
     (findNodeTarget rpc) (foundNodes rpc) (findAccountSucc rpc).

(** [rpc.foundNodes = nodes; rpc.response = true] *)
Definition asEnterReply (rpc : t) (nodes : list Contact) : t :=
  mk (id rpc) (cmd rpc) true (sender rpc) (receiver rpc)
     (findNodeTarget rpc) nodes (findAccountSucc rpc).

End RPC.

(** The values built by [errors.New] in the package. *)
Inductive error : Type :=
  | RPCIdInUse            (* "RPC id in use" *)
  | NoMatchingRPCId       (* "no matching RPC id" *)
  | ServerDown            (* "server down" *)
  | InvalidRange          (* "invalid range" *)
  | AccountNotLocated (accID : KadID).
                          (* "Failed to locate all nodes containing account" *)

(** ** The pending table *)

(** A channel is known by the rank of the [make(chan RPC)] call that
    created it, so two channels are the same exactly when they come from
    the same allocation. *)
Definition chan : Type := nat.

(** [table]: the map of the Go struct; [made] counts the channels allocated
    so far (the mutex serialises the methods, which are therefore modelled
    as atomic state transformers). *)
Record table : Type := mkTable {
  content : gmap KadID chan;
  made : nat
}.

Definition NewTable : table := mkTable ∅ 0.

Definition Add (id : KadID) (tb : table) : chan * option error * table :=
  match content tb !! id with
  | Some _ =>
      (* return make(chan RPC), errors.New("RPC id in use") *)
      (made tb, Some RPCIdInUse, mkTable (content tb) (S (made tb)))
  | None =>
      let respChan := made tb in
      (respChan, None, mkTable (<[id := respChan]> (content tb)) (S (made tb)))
  end.

Definition RetrieveChan (id : KadID) (tb : table)
    : option chan * option error * table :=
  match content tb !! id with
  | None => (None, Some NoMatchingRPCId, tb)
  | Some ch => (Some ch, None, mkTable (delete id (content tb)) (made tb))
  end.

Definition DropChan (id : KadID) (tb : table) : table :=
  mkTable (delete id (content tb)) (made tb).

(** ** The network adapter *)

(** Of the [Network] struct: the outbound channel [sender], rendered by the
    frames put on it so far (oldest first), and the embedded table. *)
Record Network : Type := mkNetwork {
  sender : list RPC.t;
  tab : table
}.

(** [TIMEOUT = 10 * time.Second], in nanoseconds. *)
Definition TIMEOUT : N := 10 * 1000000000.

(** What can happen while a goroutine is suspended on [<-respChan]: a frame
    is posted on the channel, or time passes. *)
Inductive awaitEvent : Type :=
  | Arrives (res : RPC.t)
  | Elapses (nanoseconds : N).

(** The outcome of a call that may never return. *)
Inductive outcome (A : Type) : Type :=
  | Returns (a : A)
  | Blocks.
Arguments Returns {A} a.
Arguments Blocks {A}.

(** [res := <-respChan]: the receive completes with the first frame posted;
    the passing of time does not wake it up. *)
Fixpoint awaitResponse (events : list awaitEvent)
    : outcome (RPC.t * option error) :=
  match events with
  | [] => Blocks
  | Arrives res :: _ => Returns (res, None)
  | Elapses _ :: events' => awaitResponse events'
  end.

(** [Send].  [fresh] is the value of [RandomID()]; [events] is what happens
    on the waiter channel after the frame has been emitted. *)
Definition Send (rpc : RPC.t) (fresh : KadID) (events : list awaitEvent)
    (net : Network) : outcome (RPC.t * option error) * Network :=
  if RPC.response rpc then
    (Returns (rpc, None), mkNetwork (sender net ++ [rpc]) (tab net))
  else
    let rpc := RPC.withID rpc fresh in
    let '(respChan, _, tab') := Add (RPC.id rpc) (tab net) in
    (awaitResponse events, mkNetwork (sender net ++ [rpc]) tab').

(** What [route] does with a frame. *)
Inductive routed : Type :=
  | LoggedAndDiscarded (err : error)
      (* the error is logged and the frame goes nowhere *)
  | Delivered (respChan : chan) (rpc : RPC.t) (dropLater : KadID)
      (* [go net.DropChan(rpc.id)] is started, then [respChan <- rpc] *)
  | Handled (rpc : RPC.t).
      (* [node.Handler(rpc)] *)

Definition route (rpc : RPC.t) (net : Network) : routed * Network :=
  if RPC.response rpc then
    match RetrieveChan (RPC.id rpc) (tab net) with
    | (Some respChan, None, tab') =>
        (Delivered respChan rpc (RPC.id rpc), mkNetwork (sender net) tab')
    | (_, Some err, tab') =>
        (LoggedAndDiscarded err, mkNetwork (sender net) tab')
    | (None, None, tab') =>
        (* unreachable: a nil channel is only returned with an error *)
        (LoggedAndDiscarded NoMatchingRPCId, mkNetwork (sender net) tab')
    end
  else (Handled rpc, net).

(** Sequences of table operations, as issued by any interleaving of
    [Send]s, [route]s and the [DropChan] goroutines they start. *)
Inductive tableOp : Type :=
  | OpAdd (id : KadID)
  | OpRetrieveChan (id : KadID)
  | OpDropChan (id : KadID).

Definition runOp (op : tableOp) (tb : table) : table :=
  match op with
  | OpAdd id => (Add id tb).2
  | OpRetrieveChan id => (RetrieveChan id tb).2
  | OpDropChan id => DropChan id tb
  end.

(** Number of [RetrieveChan id] calls of the sequence that hand out a
    channel. *)
Fixpoint delivered (id : KadID) (ops : list tableOp) (tb : table) : nat :=
  match ops with
  | [] => 0
  | op :: ops' =>
      (match op with
       | OpRetrieveChan id' =>
           if bool_decide (id' = id) then
             match (RetrieveChan id' tb).1.2 with None => 1 | Some _ => 0 end
           else 0
       | _ => 0
       end + delivered id ops' (runOp op tb))%nat
  end.

(** Number of [Add id] calls of the sequence that enter a channel. *)
Fixpoint registered (id : KadID) (ops : list tableOp) (tb : table) : nat :=
  match ops with
  | [] => 0
  | op :: ops' =>
      (match op with
       | OpAdd id' =>
           if bool_decide (id' = id) then
             match (Add id' tb).1.2 with None => 1 | Some _ => 0 end
           else 0
       | _ => 0
       end + registered id ops' (runOp op tb))%nat
  end.

(** ** Constants (node.go) *)

Definition KEYSPACE : nat := 160.
Definition REPLICATION : nat := 3.
Definition CONCURRENCY : nat := 3.

(** ** The iterative lookup *)

(** Lines 76-81 of the protocol file: sort, remove duplicates, cut.  The
    slice expression [contactList[:REPLICATION]] needs [REPLICATION] to be
    within the slice, which the guard gives since both constants are 3. *)
Definition processFound (contactList : list Contact) (target : KadID)
    : option (list Contact) :=
  match SortContactsByDistance contactList target with
  | None => None
  | Some sorted =>
      match RemoveDuplicateContacts sorted with
      | None => None
      | Some deduped =>
          if decide (CONCURRENCY < length deduped)%nat then
            if decide (REPLICATION ≤ length deduped)%nat
            then Some (take REPLICATION deduped)
            else None
          else Some deduped
      end
  end.

(** How one iteration of the [for] loop of [findNodeLoop] ends. *)
Inductive roundResult : Type :=
  | Continue (contactList : list Contact)
  | Return (found : list Contact)
  | Waits      (* a [<-respChan] that no query goroutine will serve *)
  | Panics.

(** One iteration.  [replies] lists the [foundNodes] payloads in the order
    in which [respChan] hands them out; every query goroutine posts at most
    one, and the loop takes one per contact of [prevContactList]. *)
Definition findNodeRound (replies : list (list Contact))
    (prevContactList : list Contact) (target : KadID) : roundResult :=
  if decide (length replies < length prevContactList)%nat then Waits
  else
    let contactList := concat (take (length prevContactList) replies) in
    match processFound contactList target with
    | None => Panics
    | Some contactList =>
        match contactList, prevContactList with
        | c :: _, p :: _ =>
            let closer := CloserNode (ID c) (ID p) target in
            if closer then Continue contactList else Return contactList
        | [], _ => Return prevContactList
        | _ :: _, [] => Continue contactList
        end
    end.

(** The result of the whole loop; [Unfinished] only says that the fuel of
    the model ran out. *)
Inductive lookupResult : Type :=
  | Found (found : list Contact)
  | Stuck
  | Crashed
  | Unfinished.

(** [findNodeLoop].  [network round shortlist] is what the queried nodes
    answer in the given round. *)
Fixpoint findNodeLoop (fuel : nat)
    (network : nat → list Contact → list (list Contact)) (round : nat)
    (prevContactList : list Contact) (target : KadID) : lookupResult :=
  match fuel with
  | O => Unfinished
  | S fuel' =>
      match findNodeRound (network round prevContactList)
              prevContactList target with
      | Continue contactList =>
          findNodeLoop fuel' network (S round) contactList target
      | Return found => Found found
      | Waits => Stuck
      | Panics => Crashed
      end
  end.

(** ** FindAccount *)

(** [respChan <- v] on a channel of capacity [cap] that nobody reads while
    the sender runs: the send goes through while there is room and blocks
    for good otherwise. *)
Definition chanSend (cap : nat) (buf : list bool) (v : bool)
    : option (list bool) :=
  if decide (length buf < cap)%nat then Some (buf ++ [v]) else None.

(** [v, ok := <-respChan] on an open channel with no sender left. *)
Definition chanRecv (buf : list bool) : option (bool * bool * list bool) :=
  match buf with
  | [] => None
  | v :: buf' => Some (v, true, buf')
  end.

(** [findAccountQuery], given what [node.Send] does with its request. *)
Definition findAccountQuery (sent : outcome (RPC.t * option error))
    (respChan : list bool) : outcome (list bool) :=
  match sent with
  | Blocks => Blocks
  | Returns (res, err) =>
      let first :=
        match err with
        | None => chanSend REPLICATION respChan (RPC.findAccountSucc res)
        | Some _ => Some respChan
        end in
      match first with
      | None => Blocks
      | Some respChan' =>
          match chanSend REPLICATION respChan' false with
          | None => Blocks
          | Some respChan'' => Returns respChan''
          end
      end
  end.

(** [for _, n := range closeNodes { node.findAccountQuery(n.IP(), ...) }] *)
Fixpoint queryAll (send : Addr → outcome (RPC.t * option error))
    (closeNodes : list Contact) (respChan : list bool)
    : outcome (list bool) :=
  match closeNodes with
  | [] => Returns respChan
  | n :: rest =>
      match findAccountQuery (send (IP n)) respChan with
      | Blocks => Blocks
      | Returns respChan' => queryAll send rest respChan'
      end
  end.

(** [for range len(closeNodes) { _, ok := <-respChan; ... }] *)
Fixpoint countFound (rounds : nat) (respChan : list bool)
    (foundAccountNodes : nat) : outcome nat :=
  match rounds with
  | O => Returns foundAccountNodes
  | S rounds' =>
      match chanRecv respChan with
      | None => Blocks
      | Some (_, ok, respChan') =>
          if negb ok then countFound rounds' respChan' foundAccountNodes
          else countFound rounds' respChan' (S foundAccountNodes)
      end
  end.

(** [FindAccount].  [closeNodes] is what [node.FindNode(accID)] returned and
    [send ip] is what [node.Send] does with the request addressed to [ip]. *)
Definition FindAccount (closeNodes : list Contact)
    (send : Addr → outcome (RPC.t * option error)) (accID : KadID)
    : outcome (list Contact * option error) :=
  match queryAll send closeNodes [] with
  | Blocks => Blocks
  | Returns respChan =>
      match countFound (length closeNodes) respChan 0 with
      | Blocks => Blocks
      | Returns foundAccountNodes =>
          if decide (foundAccountNodes = REPLICATION)
          then Returns (closeNodes, None)
          else Returns (closeNodes, Some (AccountNotLocated accID))
      end
  end.

(** ** Random numbers (util.go) and the simulated network (simnet.go) *)

(** [RandU32], given the value [x] of [rand.Uint32()]. *)
Definition RandU32 (min max : N) (x : N) : N * option error :=
  if (max <=? min)%N then (0%N, Some InvalidRange)
  else (((x mod (max - min)) + min) mod 2 ^ 32, None)%N.

(** Of the [Simnet] struct: the mailbox of every address, the list of live
    contacts, and the two settings [Route] reads.  [float32] values are
    rendered by the rationals they denote. *)
Record Simnet : Type := mkSimnet {
  chanTable : gmap Addr chan;
  nodes : list Contact;
  dropPercent : Qc;
  debug : bool
}.

(** [randomNode], given the value [x] of [rand.Uint32()]; [None] is the
    index-out-of-range panic. *)
Definition randomNode (simnet : Simnet) (x : N) : option Contact :=
  let '(index, _) :=
    RandU32 0 (N.of_nat (length (nodes simnet)) mod 2 ^ 32)%N x in
  nodes simnet !! N.to_nat index.

(** [DropRoll], given the value [r] of [rand.Float32()]. *)
Definition DropRoll (simnet : Simnet) (r : Qc) : bool :=
  if decide (dropPercent simnet = 0%Qc) then false
  else bool_decide (r < dropPercent simnet)%Qc.

(** What [Route] does with a frame. *)
Inductive routing : Type :=
  | NoMailbox                    (* no channel for the receiver: return *)
  | RollDropped (rpc : RPC.t)    (* [DropRoll] said drop *)
  | SentTo (routeChan : chan) (rpc : RPC.t)   (* [routeChan <- rpc] *)
  | RoutePanics.

(** [Route], given the two draws of [randomNode] and the draw of
    [DropRoll]. *)
Definition Route (simnet : Simnet) (rpc : RPC.t) (x1 x2 : N) (r : Qc)
    : routing :=
  match chanTable simnet !! RPC.receiver rpc with
  | None => NoMailbox
  | Some routeChan =>
      let rewritten :=
        if decide (RPC.cmd rpc = ENTER) then
          match randomNode simnet x1, randomNode simnet x2 with
          | Some n1, Some n2 => Some (RPC.asEnterReply rpc [n1; n2])
          | _, _ => None
          end
        else Some rpc in
      match rewritten with
      | None => RoutePanics
      | Some rpc =>
          if DropRoll simnet r then RollDropped rpc
          else SentTo routeChan rpc
      end
  end.

(** ** More of util.go *)

(** [bits.LeadingZeros32] of a 32-bit word: 32 less its bit length. *)
Definition LeadingZeros32 (x : N) : nat := 32 - N.to_nat (N.size x).

(** The loop of [DistPrefixLength] over the words of the two identifiers,
    [length] being the count so far. *)
Fixpoint prefixFrom (idA idB : list N) (length : nat) : nat :=
  match idA, idB with
  | x :: idA', y :: idB' =>
      let segDist := LeadingZeros32 (N.lxor x y) in
      let length := (length + segDist)%nat in
      if decide (segDist ≠ 32%nat) then length
      else prefixFrom idA' idB' length
  | _, _ => length
  end.

Definition DistPrefixLength (idA idB : KadID) : nat :=
  prefixFrom (words idA) (words idB) 0.

(** [RandomID].  Every element of [draws] holds the five values of
    [rand.Uint32()] of one turn of the outer loop; [None] says that the
    draws at hand were all zero, so that the loop is still running. *)
Fixpoint RandomID (draws : list KadID) : option KadID :=
  match draws with
  | [] => None
  | res :: draws' =>
      if bool_decide (res = (0, 0, 0, 0, 0)%N) then RandomID draws'
      else Some res
  end.

Fixpoint SliceContains (id : KadID) (slice : list Contact) : bool :=
  match slice with
  | [] => false
  | node :: slice' =>
      if bool_decide (ID node = id) then true else SliceContains id slice'
  end.

Fixpoint SliceContainsAll (sliceA sliceB : list Contact) : bool :=
  match sliceA with
  | [] => true
  | node :: sliceA' =>
      let contained := SliceContains (ID node) sliceB in
      if negb contained then false else SliceContainsAll sliceA' sliceB
  end.

Definition MergeContactsByDistance (setA setB : list Contact)
    (target : KadID) : option (list Contact) :=
  let res := setA ++ setB in
  match SortContactsByDistance res target with
  | None => None
  | Some res => RemoveDuplicateContacts res
  end.

(** ** More of simnet.go: the registry *)

(** Of the embedded [spawned] struct: the two key maps.  Its list [nodes]
    is the field [nodes] of [Simnet]. *)
Module spawned.

Record t : Type := mk {
  id : gmap KadID bool;
  ip : gmap Addr bool
}.

End spawned.

(** The registry part of the server: the mailboxes and the node list of
    [Simnet], with the key maps of [spawned]. *)
Definition registry : Type := (Simnet * spawned.t)%type.

(** [x := draw(); _, ok := m[x]; for ok { x = draw(); _, ok = m[x] }], given
    the values of the successive draws: the first one that is not a key of
    [m].  [None] when every draw at hand is taken, and the loop goes on. *)
Fixpoint firstFree `{Countable K} {V : Type} (m : gmap K V)
    (draws : list K) : option K :=
  match draws with
  | [] => None
  | x :: draws' =>
      match m !! x with
      | Some _ => firstFree m draws'
      | None => Some x
      end
  end.

(** [GenerateRandomNode], given the values [ids] of the successive
    [RandomID()] calls, the values [ips] of the successive [RandomIP()]
    calls and the channel [nodeReceiver] made for the node.  The node is
    returned as the contact [NewNode] builds for it. *)
Definition GenerateRandomNode (ids : list KadID) (ips : list Addr)
    (nodeReceiver : chan) (reg : registry) : option (Contact * registry) :=
  let '(simnet, sp) := reg in
  match firstFree (spawned.id sp) ids with
  | None => None
  | Some id =>
      let spawnedID := <[id := true]> (spawned.id sp) in
      match firstFree (spawned.ip sp) ips with
      | None => None
      | Some ip =>
          let spawnedIP := <[ip := true]> (spawned.ip sp) in
          let node := NewContact ip id in
          Some (node,
                (mkSimnet (<[ip := nodeReceiver]> (chanTable simnet))
                          (nodes simnet ++ [node])
                          (dropPercent simnet) (debug simnet),
                 spawned.mk spawnedID spawnedIP))
      end
  end.

(** [NewServer]: the registry it builds and the master node's contact. *)
Definition NewServer (debugMode : bool) (dropPercent : Qc)
    (ids : list KadID) (ips : list Addr) (nodeReceiver : chan)
    : option (Contact * registry) :=
  GenerateRandomNode ids ips nodeReceiver
    (mkSimnet ∅ [] dropPercent debugMode, spawned.mk ∅ ∅).

(** [ShutdownNode]: the registry at the point where the shutdown signal is
    sent to the node. *)
Definition ShutdownNode (node : Contact) (reg : registry) : registry :=
  let '(simnet, sp) := reg in
  let content := delete (IP node) (chanTable simnet) in
  let spawnedIP := delete (IP node) (spawned.ip sp) in
  let spawnedID := delete (ID node) (spawned.id sp) in
  let nodes' :=
    match list_find (λ c, c = node) (nodes simnet) with
    | Some (i, _) => delete i (nodes simnet)
    | None => nodes simnet
    end in
  (mkSimnet content nodes' (dropPercent simnet) (debug simnet),
   spawned.mk spawnedID spawnedIP).
(** * Specification vocabulary *)

(** ** Order and sorting *)

(** [notFarther t a b]: [a] is at most as far from [t] as [b]. *)
Definition notFarther (t : KadID) (a b : Contact) : Prop :=
  CloserNode (ID b) (ID a) t = false.

(** [a] is strictly closer to [t] than [b]. *)
Definition closerTo (t : KadID) (a b : KadID) : Prop :=
  CloserNode a b t = true.

(** Lexicographic descent on word lists of one length. *)
Definition lexCloser (a b : list N) : Prop :=
  length a = length b ∧ closerFrom a b = true.

(** One pass of the inner loop, read structurally: the element in hand is
    carried to the right until a contact that is not closer is met. *)
Fixpoint bubble (t : KadID) (a : Contact) (l : list Contact) : list Contact :=
  match l with
  | [] => [a]
  | b :: l' =>
      if swapNeeded t a b then b :: bubble t a l' else a :: bubble t b l'
  end.

Definition bubblePass (t : KadID) (l : list Contact) : list Contact :=
  match l with
  | [] => []
  | a :: l' => bubble t a l'
  end.

(** The invariant of the outer loop: all but at most [k] leading contacts
    are in their final, sorted position. *)
Definition sortedTail (t : KadID) (k : nat) (l : list Contact) : Prop :=
  ∃ pre suf, l = pre ++ suf ∧ (length pre ≤ k)%nat ∧
    StronglySorted (notFarther t) suf ∧
    Forall (λ x, Forall (notFarther t x) suf) pre.

(** ** Deduplication *)

(** Deduplication read from right to left: a contact is dropped exactly
    when the contact kept to its right carries the same identifier. *)
Definition keepLast (y : Contact) (acc : list Contact) : list Contact :=
  match acc with
  | [] => [y]
  | x :: _ => if bool_decide (ID x = ID y) then acc else y :: acc
  end.

Definition lastOfRuns (l : list Contact) : list Contact :=
  foldr keepLast [] l.

(** ** The pending table *)

(** Every channel held by the table has been allocated. *)
Definition tableWf (tb : table) : Prop :=
  ∀ id ch, content tb !! id = Some ch → (ch < made tb)%nat.

(** Whether an identifier is pending, as a number. *)
Definition pendingCount (id : KadID) (tb : table) : nat :=
  match content tb !! id with Some _ => 1 | None => 0 end.

(** ** The lookup *)


(** The cut as [findNodeLoop] makes it. *)
Definition cutToReplication (l : list Contact) : list Contact :=
  if decide (CONCURRENCY < length l)%nat then take REPLICATION l else l.

(** The shortlists queried by the successive iterations of
    [findNodeLoop]. *)
Fixpoint shortlists (fuel : nat)
    (network : nat → list Contact → list (list Contact)) (round : nat)
    (prevContactList : list Contact) (target : KadID)
    : list (list Contact) :=
  match fuel with
  | O => []
  | S fuel' =>
      prevContactList ::
      match findNodeRound (network round prevContactList)
              prevContactList target with
      | Continue contactList =>
          shortlists fuel' network (S round) contactList target
      | _ => []
      end
  end.

(** The head of [next] is strictly closer to [t] than the head of [prev]. *)
Definition headCloser (t : KadID) (prev next : list Contact) : Prop :=
  ∃ c p, head next = Some c ∧ head prev = Some p ∧
    CloserNode (ID c) (ID p) t = true.

(** ** The draws of [randomNode] *)

(** Whether the draw [x] of [rand.Uint32()] makes [randomNode] pick the
    contact at index [i]. *)
Definition selectsIndex (simnet : Simnet) (i : nat) (x : N) : bool :=
  bool_decide
    (N.to_nat
       (RandU32 0 (N.of_nat (length (nodes simnet)) mod 2 ^ 32)%N x).1 = i).

(** The number of draws below [bound] that pick index [i]; the draws of
    [rand.Uint32()] are the numbers below [2 ^ 32], each as likely as any
    other. *)
Definition drawCount (simnet : Simnet) (i : nat) (bound : N) : N :=
  N.peano_rect (λ _, N) 0%N
    (λ x acc, if selectsIndex simnet i x then N.succ acc else acc) bound.

(** ** Example values *)

(** Values used by the examples and witnesses below. *)
Definition mkID (n : N) : KadID := (0, 0, 0, 0, n)%N.
Definition mkIP (n : N) : Addr := (10, 0, 0, n)%N.
Definition mkContact (ip id : N) : Contact := NewContact (mkIP ip) (mkID id).

Definition pingRequest : RPC.t :=
  RPC.mk (mkID 0) PING false (mkContact 1 5) (mkIP 2) (mkID 0) [] false.
Definition pingReply : RPC.t :=
  RPC.mk (mkID 77) PING true (mkContact 2 6) (mkIP 1) (mkID 0) [] false.
Definition net0 : Network := mkNetwork [] NewTable.

(** A network whose nodes first name a closer contact and then a farther
    one. *)
Definition demoNetwork (round : nat) (queried : list Contact)
    : list (list Contact) :=
  match round with
  | O => [[mkContact 2 4]]
  | _ => [[mkContact 3 6]]
  end.

Definition accountRequest (ip : Addr) : RPC.t :=
  RPC.mk (mkID 0) FIND_WALLET false (mkContact 1 5) ip (mkID 42) [] false.
Definition accountConfirmed : RPC.t :=
  RPC.mk (mkID 9) FIND_WALLET true (mkContact 2 6) (mkIP 1) (mkID 42) [] true.

(** [node.Send] on a network where every queried node answers that it holds
    the account. *)
Definition confirmingSend (ip : Addr) : outcome (RPC.t * option error) :=
  (Send (accountRequest ip) (mkID 9) [Arrives accountConfirmed] net0).1.

Definition threeNodes : Simnet :=
  mkSimnet {[mkIP 1 := 0%nat; mkIP 2 := 1%nat; mkIP 3 := 2%nat]}
    [mkContact 1 11; mkContact 2 22; mkContact 3 33] 0%Qc false.
Definition enterRequest : RPC.t :=
  RPC.mk (mkID 5) ENTER false (mkContact 2 22) (mkIP 2) (mkID 0) [] false.

(** ** The number an identifier writes *)

(** The value of a list of 32-bit words, most significant first. *)
Fixpoint wordsValue (ws : list N) : N :=
  match ws with
  | [] => 0
  | w :: ws' => w * (2 ^ 32) ^ N.of_nat (length ws') + wordsValue ws'
  end.

Definition idValue (x : KadID) : N := wordsValue (words x).

(** Every word fits 32 bits, as the type [[5]uint32] has it. *)
Definition wordsOK (x : KadID) : Prop :=
  Forall (λ w, (w < 2 ^ 32)%N) (words x).

(** ** Strict order of contacts by distance *)

(** [a] is strictly closer to [t] than [b]. *)
Definition closerContact (t : KadID) (a b : Contact) : Prop :=
  CloserNode (ID a) (ID b) t = true.

(** No two neighbours of the list carry the same identifier. *)
Definition noEqualNeighbours (l : list Contact) : Prop :=
  ∀ (i : nat) (a b : Contact),
    l !! i = Some a → l !! S i = Some b → ID a ≠ ID b.

(** ** Runs of the pending table *)

(** The table after a sequence of operations. *)
Definition runOps (ops : list tableOp) (tb : table) : table :=
  foldl (λ tb op, runOp op tb) tb ops.

(** No channel is held under two identifiers. *)
Definition channelsDistinct (tb : table) : Prop :=
  ∀ id1 id2 ch,
    content tb !! id1 = Some ch → content tb !! id2 = Some ch → id1 = id2.

(** ** The registry of the simulated network *)

(** The mailboxes, the two key maps and the node list describe the same
    nodes: an address has a mailbox exactly when it is recorded, exactly
    when a listed node has it; an identifier is recorded exactly when a
    listed node has it; and no two listed nodes share an address or an
    identifier. *)
Record registryWf (reg : registry) : Prop := mkRegistryWf {
  wf_mailbox : ∀ ip,
    is_Some (chanTable reg.1 !! ip) ↔ is_Some (spawned.ip reg.2 !! ip);
  wf_ip : ∀ ip,
    is_Some (spawned.ip reg.2 !! ip) ↔ ip ∈ IP <$> nodes reg.1;
  wf_id : ∀ id,
    is_Some (spawned.id reg.2 !! id) ↔ id ∈ ID <$> nodes reg.1;
  wf_ip_distinct : NoDup (IP <$> nodes reg.1);
  wf_id_distinct : NoDup (ID <$> nodes reg.1)
}.

(** A registry of one node, and one of two. *)
Definition oneNode : registry :=
  (mkSimnet (<[mkIP 1 := 0%nat]> ∅) ([] ++ [mkContact 1 11]) 0%Qc false,
   spawned.mk (<[mkID 11 := true]> ∅) (<[mkIP 1 := true]> ∅)).

Definition twoNodes : registry :=
  (mkSimnet (<[mkIP 2 := 1%nat]> (chanTable oneNode.1))
            (nodes oneNode.1 ++ [mkContact 2 12]) 0%Qc false,
   spawned.mk (<[mkID 12 := true]> (spawned.id oneNode.2))
              (<[mkIP 2 := true]> (spawned.ip oneNode.2))).
(** * Properties *)

(** Case analysis on every unsigned comparison in the goal. *)
Ltac ltb_cases :=
  repeat match goal with
         | |- context [(?x <? ?y)%N] => destruct (N.ltb_spec x y)
         end.

(** ** The order induced by the XOR distance *)

Lemma words_length (x : KadID) : length (words x) = 5%nat.
Proof. by destruct x as [[[[a b] c] d] e]. Qed.

Lemma closerFrom_irrefl (d : list N) : closerFrom d d = false.
Proof.
  induction d as [|x d IH]; simpl; [done|].
  by rewrite N.ltb_irrefl.
Qed.

Lemma closerFrom_asym (a b : list N) :
  closerFrom a b = true → closerFrom b a = false.
Proof.
  revert b; induction a as [|x a IH]; intros [|y b]; simpl; try done.
  ltb_cases; try done; try lia. apply IH.
Qed.

Lemma closerFrom_le_trans (a b c : list N) :
  length a = length b → length b = length c →
  closerFrom b a = false → closerFrom c b = false → closerFrom c a = false.
Proof.
  revert b c; induction a as [|x a IH]; intros [|y b] [|z c]; simpl;
    try done.
  intros Hab Hbc. ltb_cases; try done; try lia.
  apply IH; lia.
Qed.

Lemma largerFrom_irrefl (d : list N) : largerFrom d d = false.
Proof.
  induction d as [|x d IH]; simpl; [done|].
  by rewrite N.ltb_irrefl.
Qed.

Lemma lxor_cancel_r (a b t : N) : N.lxor a t = N.lxor b t → a = b.
Proof.
  intros H.
  rewrite <- (N.lxor_0_r a), <- (N.lxor_0_r b), <- (N.lxor_nilpotent t).
  by rewrite <- !N.lxor_assoc, H.
Qed.

(** Two identifiers at the same distance from a target are equal. *)
Lemma RelativeDistance_inj (a b t : KadID) :
  RelativeDistance a t = RelativeDistance b t → a = b.
Proof.
  destruct a as [[[[a0 a1] a2] a3] a4], b as [[[[b0 b1] b2] b3] b4],
    t as [[[[t0 t1] t2] t3] t4]; simpl.
  intros [= H0 H1 H2 H3 H4].
  by rewrite (lxor_cancel_r _ _ _ H0), (lxor_cancel_r _ _ _ H1),
    (lxor_cancel_r _ _ _ H2), (lxor_cancel_r _ _ _ H3),
    (lxor_cancel_r _ _ _ H4).
Qed.

Lemma EquiDistantNode_true (a b t : KadID) :
  EquiDistantNode a b t = true ↔ a = b.
Proof.
  unfold EquiDistantNode. rewrite bool_decide_eq_true. split.
  - apply RelativeDistance_inj.
  - by intros ->.
Qed.

Lemma LargerNode_irrefl (a : KadID) : LargerNode a a = false.
Proof. apply largerFrom_irrefl. Qed.

Create HintDb kad discriminated.

Section SortByDistance.

Context (t : KadID).

(** The tie branch of the sort never asks for a swap: equidistant contacts
    carry the same identifier, and no identifier is larger than itself. *)
Lemma swapNeeded_closer (a b : Contact) :
  swapNeeded t a b = CloserNode (ID b) (ID a) t.
Proof.
  unfold swapNeeded. destruct (CloserNode (ID b) (ID a) t); [done|].
  destruct (EquiDistantNode (ID a) (ID b) t) eqn:He; [|done].
  apply EquiDistantNode_true in He. rewrite He. apply LargerNode_irrefl.
Qed.

(** [notFarther t] is a total preorder. *)
Lemma notFarther_refl (a : Contact) : notFarther t a a.
Proof. apply closerFrom_irrefl. Qed.

Lemma notFarther_trans (a b c : Contact) :
  notFarther t a b → notFarther t b c → notFarther t a c.
Proof.
  unfold notFarther, CloserNode. intros Hab Hbc.
  eapply closerFrom_le_trans; [| |exact Hab|exact Hbc];
    by rewrite !words_length.
Qed.

Lemma closer_notFarther (a b : Contact) :
  CloserNode (ID a) (ID b) t = true → notFarther t a b.
Proof. apply closerFrom_asym. Qed.

Lemma notFarther_total (a b : Contact) : notFarther t a b ∨ notFarther t b a.
Proof.
  destruct (CloserNode (ID a) (ID b) t) eqn:H.
  - left. by apply closer_notFarther.
  - by right.
Qed.

Hint Resolve notFarther_refl closer_notFarther : kad.

(** *** The loops, read structurally *)

Lemma sortStep_at (pre : list Contact) (a b : Contact) (rest : list Contact) :
  sortStep t (pre ++ a :: b :: rest) (length pre)
  = Some (if swapNeeded t a b then pre ++ b :: a :: rest
          else pre ++ a :: b :: rest).
Proof.
  unfold sortStep.
  rewrite list_lookup_middle by done.
  replace (pre ++ a :: b :: rest) with ((pre ++ [a]) ++ b :: rest)
    by by rewrite <- app_assoc.
  rewrite list_lookup_middle by (rewrite length_app; simpl; lia).
  destruct (swapNeeded t a b); [|done].
  f_equal. rewrite <- app_assoc. simpl.
  rewrite insert_app_r_alt by lia. rewrite Nat.sub_diag. simpl.
  rewrite insert_app_r_alt by lia.
  replace (length pre + 1 - length pre)%nat with 1%nat by lia.
  done.
Qed.

Lemma forRange_bubble (rest pre : list Contact) (a : Contact) :
  forRange (sortStep t) (length pre) (length rest) (pre ++ a :: rest)
  = Some (pre ++ bubble t a rest).
Proof.
  revert pre a. induction rest as [|b rest IH]; intros pre a; [done|].
  cbn [forRange length bubble]. rewrite sortStep_at.
  destruct (swapNeeded t a b).
  - specialize (IH (pre ++ [b]) a).
    rewrite length_app, <- !app_assoc in IH. simpl in IH.
    by rewrite Nat.add_1_r in IH.
  - specialize (IH (pre ++ [a]) b).
    rewrite length_app, <- !app_assoc in IH. simpl in IH.
    by rewrite Nat.add_1_r in IH.
Qed.

Lemma sortPass_bubblePass (l : list Contact) :
  sortPass t l = Some (bubblePass t l).
Proof.
  unfold sortPass. destruct l as [|a rest]; [done|].
  simpl. rewrite Nat.sub_0_r. apply (forRange_bubble rest [] a).
Qed.

Lemma forRange_const {S : Type} (body : S → option S) (f : S → S)
    (start n : nat) (s : S) :
  (∀ s', body s' = Some (f s')) →
  forRange (λ s' _, body s') start n s = Some (Nat.iter n f s).
Proof.
  intros Hbody. revert start s.
  induction n as [|n IH]; intros start s; [done|].
  cbn [forRange]. rewrite Hbody, IH. by rewrite Nat.iter_succ_r.
Qed.

Lemma SortContactsByDistance_iter (l : list Contact) :
  SortContactsByDistance l t
  = Some (Nat.iter (length l - 1) (bubblePass t) l).
Proof. apply forRange_const, sortPass_bubblePass. Qed.

(** *** Every pass permutes *)

Lemma bubble_perm (l : list Contact) (a : Contact) : bubble t a l ≡ₚ a :: l.
Proof.
  revert a. induction l as [|b l IH]; intros a; simpl; [done|].
  destruct (swapNeeded t a b).
  - rewrite IH. apply Permutation_swap.
  - by rewrite IH.
Qed.

Lemma bubblePass_perm (l : list Contact) : bubblePass t l ≡ₚ l.
Proof. destruct l; [done|]. apply bubble_perm. Qed.

Lemma bubblePass_iter_perm (n : nat) (l : list Contact) :
  Nat.iter n (bubblePass t) l ≡ₚ l.
Proof.
  induction n as [|n IH]; [done|].
  simpl. by rewrite bubblePass_perm.
Qed.

(** *** Every pass puts one more contact in place *)

(** A pass ends with a contact that no contact of the list is farther than. *)
Lemma bubble_snoc (l : list Contact) (a : Contact) :
  ∃ init m, bubble t a l = init ++ [m] ∧
    Forall (λ x, notFarther t x m) (a :: l).
Proof.
  revert a. induction l as [|b l IH]; intros a; simpl.
  - exists [], a. split; [done|]. repeat constructor. auto with kad.
  - rewrite swapNeeded_closer.
    destruct (CloserNode (ID b) (ID a) t) eqn:Hc.
    + destruct (IH a) as (init & m & -> & Hall).
      exists (b :: init), m. split; [done|].
      apply Forall_cons in Hall as [Ham Hall].
      repeat (apply Forall_cons; split); try done.
      eapply notFarther_trans; [|exact Ham]. auto with kad.
    + destruct (IH b) as (init & m & -> & Hall).
      exists (a :: init), m. split; [done|].
      pose proof Hall as Hall'. apply Forall_cons in Hall' as [Hbm _].
      apply Forall_cons; split; [|done].
      eapply notFarther_trans; [exact Hc|exact Hbm].
Qed.

(** A pass leaves alone a sorted suffix that nothing before it exceeds. *)
Lemma bubble_sorted_suffix (l suf : list Contact) (a : Contact) :
  StronglySorted (notFarther t) suf →
  Forall (λ x, Forall (notFarther t x) suf) (a :: l) →
  bubble t a (l ++ suf) = bubble t a l ++ suf.
Proof.
  intros Hsuf. revert a. induction l as [|b l IH]; intros a Hall; simpl.
  - apply Forall_cons in Hall as [Ha _]. revert a Ha.
    induction Hsuf as [|s suf Hsuf IH Hs]; intros a Ha; simpl; [done|].
    apply Forall_cons in Ha as [Has _].
    rewrite swapNeeded_closer, Has. f_equal. by apply IH.
  - apply Forall_cons in Hall as [Ha Hall].
    pose proof Hall as Hall'. apply Forall_cons in Hall' as [Hb Hl].
    destruct (swapNeeded t a b); simpl; f_equal; apply IH;
      by apply Forall_cons.
Qed.

Lemma bubblePass_sortedTail (k : nat) (l : list Contact) :
  sortedTail t (S k) l → sortedTail t k (bubblePass t l).
Proof.
  intros (pre & suf & -> & Hlen & Hsuf & Hpre).
  destruct pre as [|a p]; simpl.
  - exists [], (bubblePass t suf).
    destruct suf as [|s suf]; simpl.
    + repeat split; [lia|constructor|constructor].
    + apply StronglySorted_inv in Hsuf as [Hsuf Hs].
      pose proof (bubble_sorted_suffix [] suf s Hsuf) as Hid.
      simpl in Hid. rewrite Hid by by constructor.
      repeat split; [lia| |constructor]. by constructor.
  - rewrite (bubble_sorted_suffix p suf a Hsuf Hpre).
    destruct (bubble_snoc p a) as (init & m & Heq & Hmax).
    pose proof (bubble_perm p a) as Hperm. rewrite Heq in Hperm.
    assert (Hinit : ∀ x, x ∈ init ++ [m] → Forall (notFarther t x) suf).
    { intros x Hx. rewrite Hperm in Hx.
      by apply (proj1 (Forall_forall _ _) Hpre). }
    assert (Hinitm : ∀ x, x ∈ init → notFarther t x m).
    { intros x Hx. apply (proj1 (Forall_forall _ _) Hmax).
      rewrite <- Hperm. set_solver. }
    exists init, (m :: suf). rewrite Heq, <- app_assoc.
    split; [done|]. split.
    { apply Permutation_length in Hperm. rewrite length_app in Hperm.
      simpl in *. lia. }
    split.
    { constructor; [done|]. apply Hinit. set_solver. }
    apply Forall_forall. intros x Hx. constructor.
    + by apply Hinitm.
    + apply Hinit. set_solver.
Qed.

Lemma bubblePass_iter_sortedTail (n k : nat) (l : list Contact) :
  sortedTail t (n + k) l → sortedTail t k (Nat.iter n (bubblePass t) l).
Proof.
  revert k. induction n as [|n IH]; intros k H; [done|].
  simpl. apply bubblePass_sortedTail, IH.
  by rewrite Nat.add_succ_r.
Qed.

Lemma sortedTail_1 (l : list Contact) :
  sortedTail t 1 l → StronglySorted (notFarther t) l.
Proof.
  intros (pre & suf & -> & Hlen & Hsuf & Hpre).
  destruct pre as [|x [|y pre]]; simpl in *; [done| |lia].
  apply Forall_cons in Hpre as [Hx _]. by constructor.
Qed.

Lemma sortedTail_full (l : list Contact) : sortedTail t (length l) l.
Proof.
  exists l, []. rewrite app_nil_r. repeat split; [lia|constructor|].
  apply Forall_forall. intros x _. constructor.
Qed.

Lemma bubble_iter_sorted (l : list Contact) :
  StronglySorted (notFarther t) (Nat.iter (length l - 1) (bubblePass t) l).
Proof.
  destruct l as [|a l]; [constructor|].
  apply sortedTail_1, bubblePass_iter_sortedTail.
  simpl. rewrite Nat.sub_0_r, Nat.add_1_r.
  apply (sortedTail_full (a :: l)).
Qed.

End SortByDistance.

Lemma StronglySorted_lookup_lt {A : Type} (R : relation A) (l : list A)
    (i j : nat) (a b : A) :
  StronglySorted R l → (i < j)%nat →
  l !! i = Some a → l !! j = Some b → R a b.
Proof.
  intros Hs. revert i j. induction Hs as [|x l Hs IH Hx]; intros i j Hij;
    [done|].
  destruct j as [|j]; [lia|]. destruct i as [|i]; simpl.
  - intros [= ->] Hb. apply (proj1 (Forall_forall _ _) Hx).
    by eapply list_elem_of_lookup_2.
  - apply IH. lia.
Qed.

(** C5.  [SortContactsByDistance] returns a permutation of its input in
    which no contact is closer to the target than a contact placed before
    it (ascending XOR distance), and in which, of two contacts at the same
    distance, the later one never carries the larger identifier: two such
    contacts carry the same identifier. *)
Theorem SortContactsByDistance_ascending (input : list Contact)
    (target : KadID) :
  ∃ out, SortContactsByDistance input target = Some out ∧
    out ≡ₚ input ∧
    ∀ (i j : nat) (a b : Contact),
      (i < j)%nat → out !! i = Some a → out !! j = Some b →
      CloserNode (ID b) (ID a) target = false ∧
      (EquiDistantNode (ID a) (ID b) target = true →
       ID a = ID b ∧ LargerNode (ID b) (ID a) = false).
Proof.
  exists (Nat.iter (length input - 1) (bubblePass target) input).
  split; [apply SortContactsByDistance_iter|].
  split; [apply bubblePass_iter_perm|].
  intros i j a b Hij Ha Hb. split.
  - by eapply (StronglySorted_lookup_lt (notFarther target) _ i j a b);
      [apply bubble_iter_sorted|..].
  - intros He. apply EquiDistantNode_true in He. split; [done|].
    rewrite He. apply LargerNode_irrefl.
Qed.

Lemma SortContactsByDistance_ascending_witness :
  ∃ out,
    SortContactsByDistance
      [mkContact 1 9; mkContact 2 3; mkContact 3 7; mkContact 4 3] (mkID 1)
    = Some out ∧
    out !! 0%nat = Some (mkContact 2 3) ∧
    out !! 1%nat = Some (mkContact 4 3) ∧
    EquiDistantNode (mkID 3) (mkID 3) (mkID 1) = true ∧
    CloserNode (mkID 3) (mkID 3) (mkID 1) = false ∧
    LargerNode (mkID 3) (mkID 3) = false.
Proof.
  destruct (SortContactsByDistance_ascending
    [mkContact 1 9; mkContact 2 3; mkContact 3 7; mkContact 4 3] (mkID 1))
    as (out & Hs & Hp & Hord).
  exists out. split; [exact Hs|].
  assert (Some out
          = Some [mkContact 2 3; mkContact 4 3; mkContact 3 7; mkContact 1 9])
    as Hout by (rewrite <- Hs; reflexivity).
  injection Hout as Hout.
  assert (out !! 0%nat = Some (mkContact 2 3)) as H0
    by (rewrite Hout; reflexivity).
  assert (out !! 1%nat = Some (mkContact 4 3)) as H1
    by (rewrite Hout; reflexivity).
  destruct (Hord 0%nat 1%nat (mkContact 2 3) (mkContact 4 3)
    ltac:(lia) H0 H1) as [Hc Hl].
  split; [exact H0|]. split; [exact H1|]. split; [reflexivity|].
  split; [exact Hc|]. apply Hl. reflexivity.
Defined.

Example SortContactsByDistance_run :
  SortContactsByDistance
    [mkContact 1 9; mkContact 2 3; mkContact 3 7; mkContact 4 3] (mkID 1)
  = Some [mkContact 2 3; mkContact 4 3; mkContact 3 7; mkContact 1 9].
Proof. reflexivity. Qed.

(** ** RemoveDuplicateContacts *)

Example RemoveDuplicateContacts_run :
  RemoveDuplicateContacts
    [mkContact 2 3; mkContact 4 3; mkContact 3 7; mkContact 1 9; mkContact 5 9]
  = Some [mkContact 4 3; mkContact 3 7; mkContact 5 9].
Proof. reflexivity. Qed.

Lemma dedupLoop_foldr (pre : list Contact) (x : Contact)
    (suf : list Contact) :
  dedupLoop (length pre) (pre ++ x :: suf)
  = Some (foldr keepLast (x :: suf) pre).
Proof.
  revert x suf. induction pre as [|y pre IH] using rev_ind; intros x suf;
    [done|].
  rewrite length_app, Nat.add_1_r. cbn [length dedupLoop].
  unfold dedupStep. rewrite Nat.sub_succ, Nat.sub_0_r.
  replace ((pre ++ [y]) ++ x :: suf) with (pre ++ y :: x :: suf)
    by by rewrite <- app_assoc.
  rewrite (list_lookup_middle pre (x :: suf) y (length pre)) by done.
  replace (pre ++ y :: x :: suf) with ((pre ++ [y]) ++ x :: suf)
    by by rewrite <- app_assoc.
  rewrite (list_lookup_middle (pre ++ [y]) suf x (S (length pre)))
    by (rewrite length_app; simpl; lia).
  rewrite foldr_app. simpl.
  destruct (bool_decide (ID x = ID y)).
  - rewrite <- app_assoc, take_app_length.
    replace (pre ++ [y] ++ x :: suf) with ((pre ++ [y]) ++ x :: suf)
      by by rewrite <- app_assoc.
    rewrite drop_app_length' by (rewrite length_app; simpl; lia).
    apply IH.
  - rewrite <- app_assoc. apply IH.
Qed.

Lemma RemoveDuplicateContacts_lastOfRuns (set : list Contact) :
  RemoveDuplicateContacts set = Some (lastOfRuns set).
Proof.
  unfold RemoveDuplicateContacts, lastOfRuns.
  destruct set as [|x pre _] using rev_ind; [done|].
  rewrite length_app, Nat.add_1_r, Nat.sub_succ, Nat.sub_0_r.
  rewrite dedupLoop_foldr. by rewrite foldr_app.
Qed.

Lemma lastOfRuns_cons (y : Contact) (l : list Contact) :
  lastOfRuns (y :: l) = keepLast y (lastOfRuns l).
Proof. done. Qed.

Lemma lastOfRuns_head (l : list Contact) :
  ID <$> head (lastOfRuns l) = ID <$> head l.
Proof.
  induction l as [|y l IH]; [done|].
  rewrite lastOfRuns_cons. unfold keepLast.
  destruct (lastOfRuns l) as [|x r]; [done|].
  case_bool_decide as Hxy; [|done]. simpl. by rewrite Hxy.
Qed.

Lemma lastOfRuns_nil (l : list Contact) : lastOfRuns l = [] → l = [].
Proof.
  destruct l as [|y l]; [done|].
  rewrite lastOfRuns_cons. unfold keepLast.
  destruct (lastOfRuns l); [done|]. by case_bool_decide.
Qed.

Lemma lastOfRuns_no_adjacent (l : list Contact) (i : nat) (a b : Contact) :
  lastOfRuns l !! i = Some a → lastOfRuns l !! S i = Some b → ID a ≠ ID b.
Proof.
  revert i a b. induction l as [|y l IH]; intros i a b; [done|].
  rewrite lastOfRuns_cons. unfold keepLast.
  destruct (lastOfRuns l) as [|x r] eqn:Hr; [done|].
  case_bool_decide as Hxy; [apply IH|].
  destruct i as [|i]; simpl.
  - intros [= <-] [= <-]. congruence.
  - apply IH.
Qed.

Lemma lastOfRuns_sublist (l : list Contact) : lastOfRuns l `sublist_of` l.
Proof.
  induction l as [|y l IH]; [done|].
  rewrite lastOfRuns_cons. unfold keepLast.
  destruct (lastOfRuns l) as [|x r].
  - apply sublist_skip, sublist_nil_l.
  - case_bool_decide; [by apply sublist_cons|by apply sublist_skip].
Qed.

Lemma foldr_keepLast_run (x : Contact) (r run : list Contact) :
  Forall (λ c, ID c = ID x) run → foldr keepLast (x :: r) run = x :: r.
Proof.
  induction 1 as [|c run Hc _ IH]; [done|].
  simpl. rewrite IH. simpl. by rewrite bool_decide_eq_true_2.
Qed.

Lemma foldr_keepLast_app (x : Contact) (r pre : list Contact) :
  (∀ y, last pre = Some y → ID y ≠ ID x) →
  foldr keepLast (x :: r) pre = lastOfRuns pre ++ x :: r.
Proof.
  induction pre as [|y pre IH]; intros Hlast; [done|].
  simpl. destruct pre as [|y' pre].
  - simpl. rewrite bool_decide_eq_false_2; [done|].
    intros Heq. by apply (Hlast y).
  - rewrite IH by (intros z Hz; by apply Hlast).
    fold (lastOfRuns (y' :: pre)).
    destruct (lastOfRuns (y' :: pre)) as [|h tl] eqn:Hh.
    + by apply lastOfRuns_nil in Hh.
    + simpl. by case_bool_decide.
Qed.

Lemma lastOfRuns_run (pre run : list Contact) (x : Contact)
    (post : list Contact) :
  Forall (λ c, ID c = ID x) run →
  (∀ y, last pre = Some y → ID y ≠ ID x) →
  (∀ z, head post = Some z → ID z ≠ ID x) →
  lastOfRuns (pre ++ run ++ x :: post)
  = lastOfRuns pre ++ x :: lastOfRuns post.
Proof.
  intros Hrun Hpre Hpost. unfold lastOfRuns at 1.
  rewrite !foldr_app. cbn [foldr]. fold (lastOfRuns post).
  assert (keepLast x (lastOfRuns post) = x :: lastOfRuns post) as ->.
  { pose proof (lastOfRuns_head post) as Hh. unfold keepLast.
    destruct (lastOfRuns post) as [|z' r]; [done|].
    destruct post as [|z post]; [done|]. simpl in Hh.
    injection Hh as Hh. rewrite bool_decide_eq_false_2; [done|].
    rewrite Hh. by apply Hpost. }
  rewrite foldr_keepLast_run by done.
  by apply foldr_keepLast_app.
Qed.

(** C10.  [RemoveDuplicateContacts] never fails; its result has no two
    neighbours with the same identifier, is a sublist of the input (every
    kept contact comes from the input, in the input's order), and a maximal
    run of contacts with one identifier is replaced by its last contact. *)
Theorem RemoveDuplicateContacts_keeps_last_of_run (set : list Contact) :
  ∃ out, RemoveDuplicateContacts set = Some out ∧
    (∀ (i : nat) (a b : Contact),
       out !! i = Some a → out !! S i = Some b → ID a ≠ ID b) ∧
    out `sublist_of` set ∧
    (∀ (pre run : list Contact) (x : Contact) (post : list Contact),
       set = pre ++ run ++ x :: post →
       Forall (λ c, ID c = ID x) run →
       (∀ y, last pre = Some y → ID y ≠ ID x) →
       (∀ z, head post = Some z → ID z ≠ ID x) →
       ∃ outPre outPost,
         RemoveDuplicateContacts pre = Some outPre ∧
         RemoveDuplicateContacts post = Some outPost ∧
         out = outPre ++ x :: outPost).
Proof.
  exists (lastOfRuns set).
  split; [apply RemoveDuplicateContacts_lastOfRuns|].
  split; [apply lastOfRuns_no_adjacent|].
  split; [apply lastOfRuns_sublist|].
  intros pre run x post -> Hrun Hpre Hpost.
  exists (lastOfRuns pre), (lastOfRuns post).
  rewrite !RemoveDuplicateContacts_lastOfRuns.
  split; [done|]. split; [done|]. by apply lastOfRuns_run.
Qed.

Lemma RemoveDuplicateContacts_keeps_last_of_run_witness :
  ∃ out,
    RemoveDuplicateContacts
      [mkContact 3 7; mkContact 2 3; mkContact 4 3; mkContact 1 9] = Some out ∧
    out = [mkContact 3 7; mkContact 4 3; mkContact 1 9].
Proof.
  destruct (RemoveDuplicateContacts_keeps_last_of_run
    [mkContact 3 7; mkContact 2 3; mkContact 4 3; mkContact 1 9])
    as (out & Hs & _ & _ & Hrun).
  exists out. split; [exact Hs|].
  destruct (Hrun [mkContact 3 7] [mkContact 2 3] (mkContact 4 3)
              [mkContact 1 9])
    as (outPre & outPost & Hpre & Hpost & ->).
  - reflexivity.
  - repeat constructor.
  - intros y [= <-]. discriminate.
  - intros z [= <-]. discriminate.
  - injection Hpre as <-. injection Hpost as <-. reflexivity.
Defined.

(** ** The pending table *)

Lemma Add_tableWf (id : KadID) (tb : table) :
  tableWf tb → tableWf (Add id tb).2.
Proof.
  intros Hwf id' ch. unfold Add.
  destruct (content tb !! id) eqn:Hid; simpl.
  - intros H. apply Hwf in H. lia.
  - rewrite lookup_insert. case_decide.
    + intros [= <-]. lia.
    + intros Hl. apply Hwf in Hl. lia.
Qed.

Lemma RetrieveChan_tableWf (id : KadID) (tb : table) :
  tableWf tb → tableWf (RetrieveChan id tb).2.
Proof.
  intros Hwf id' ch. unfold RetrieveChan.
  destruct (content tb !! id) eqn:Hid; simpl; [|apply Hwf].
  rewrite lookup_delete. case_decide; [done|apply Hwf].
Qed.

Lemma DropChan_tableWf (id : KadID) (tb : table) :
  tableWf tb → tableWf (DropChan id tb).
Proof.
  intros Hwf id' ch. simpl.
  rewrite lookup_delete. case_decide; [done|apply Hwf].
Qed.

Lemma runOp_tableWf (op : tableOp) (tb : table) :
  tableWf tb → tableWf (runOp op tb).
Proof.
  destruct op; simpl;
    [apply Add_tableWf|apply RetrieveChan_tableWf|apply DropChan_tableWf].
Qed.

Lemma NewTable_tableWf : tableWf NewTable.
Proof. intros id ch. simpl. by rewrite lookup_empty. Qed.

Lemma Add_made (id : KadID) (tb : table) :
  (Add id tb).1.1 = made tb ∧ made (Add id tb).2 = S (made tb).
Proof. unfold Add. by destruct (content tb !! id). Qed.

(** C7.  [Add] on a present identifier reports [RPCIdInUse] and leaves the
    map alone; on an absent one it enters a newly made channel under the
    identifier and returns that channel, after which a second [Add] of the
    identifier is refused.  The channel is held under no identifier before
    the call, and the entries of the map never repeat an identifier. *)
Theorem Add_registers_fresh_or_fails (id : KadID) (tb : table)
    (respChan : chan) (err : option error) (tb' : table) :
  Add id tb = (respChan, err, tb') →
  (is_Some (content tb !! id) →
     err = Some RPCIdInUse ∧ content tb' = content tb) ∧
  (content tb !! id = None →
     err = None ∧
     content tb' = <[id := respChan]> (content tb) ∧
     content tb' !! id = Some respChan ∧
     size (content tb') = S (size (content tb)) ∧
     (Add id tb').1.2 = Some RPCIdInUse) ∧
  (tableWf tb →
     (∀ id', content tb !! id' ≠ Some respChan) ∧ tableWf tb') ∧
  NoDup (map_to_list (content tb')).*1.
Proof.
  intros HAdd.
  assert (respChan = made tb) as Hch.
  { pose proof (Add_made id tb) as [H _]. by rewrite HAdd in H. }
  split; [|split; [|split]].
  - intros [ch Hin]. unfold Add in HAdd. rewrite Hin in HAdd.
    by injection HAdd as <- <- <-.
  - intros Hnone. unfold Add in HAdd. rewrite Hnone in HAdd.
    injection HAdd as <- <- <-. simpl.
    split; [done|]. split; [done|].
    split; [by rewrite lookup_insert_eq|].
    split; [by apply map_size_insert_None|].
    unfold Add. simpl. by rewrite lookup_insert_eq.
  - intros Hwf. split.
    + intros id' Hin. apply Hwf in Hin. lia.
    + pose proof (Add_tableWf id tb Hwf) as H. by rewrite HAdd in H.
  - apply NoDup_fst_map_to_list.
Qed.

Lemma Add_registers_fresh_or_fails_witness :
  content (Add (mkID 7) NewTable).2 !! mkID 7 = Some 0%nat ∧
  (Add (mkID 7) (Add (mkID 7) NewTable).2).1.2 = Some RPCIdInUse ∧
  content (Add (mkID 7) (Add (mkID 7) NewTable).2).2
  = content (Add (mkID 7) NewTable).2.
Proof.
  destruct (Add_registers_fresh_or_fails (mkID 7) NewTable 0%nat None
              (mkTable {[mkID 7 := 0%nat]} 1) eq_refl)
    as (_ & Hnew & _ & _).
  destruct (Hnew eq_refl) as (_ & _ & Hin & _ & Hagain).
  split; [exact Hin|]. split; [exact Hagain|].
  destruct (Add_registers_fresh_or_fails (mkID 7)
              (mkTable {[mkID 7 := 0%nat]} 1) 1%nat (Some RPCIdInUse)
              (mkTable {[mkID 7 := 0%nat]} 2))
    as (Hused & _); [vm_compute; reflexivity|].
  destruct Hused as [_ Hsame]; [exists 0%nat; vm_compute; reflexivity|].
  exact Hsame.
Defined.

Lemma RetrieveChan_absent (id : KadID) (tb : table) :
  content tb !! id = None →
  RetrieveChan id tb = (None, Some NoMatchingRPCId, tb).
Proof. intros H. unfold RetrieveChan. by rewrite H. Qed.

Lemma DropChan_absent (id : KadID) (tb : table) :
  content tb !! id = None → DropChan id tb = tb.
Proof.
  intros H. unfold DropChan. rewrite delete_id by done. by destruct tb.
Qed.

Lemma route_absent (rpc : RPC.t) (net : Network) :
  RPC.response rpc = true →
  content (tab net) !! RPC.id rpc = None →
  route rpc net = (LoggedAndDiscarded NoMatchingRPCId, net).
Proof.
  intros Hr Hnone. unfold route. rewrite Hr, RetrieveChan_absent by done.
  by destruct net.
Qed.

Lemma pendingCount_other (id : KadID) (op : tableOp) (tb : table) :
  match op with OpAdd i | OpRetrieveChan i | OpDropChan i => i ≠ id end →
  pendingCount id (runOp op tb) = pendingCount id tb.
Proof.
  unfold pendingCount.
  destruct op as [i|i|i]; intros Hne; simpl; unfold Add, RetrieveChan;
    try destruct (content tb !! i); simpl;
    by rewrite ?lookup_insert_ne, ?lookup_delete_ne.
Qed.

(** In any sequence of table operations an identifier is delivered at most
    as often as it was registered (counting an entry present at the
    start). *)
Lemma delivered_le_registered (id : KadID) (ops : list tableOp) (tb : table) :
  (delivered id ops tb ≤ registered id ops tb + pendingCount id tb)%nat.
Proof.
  revert tb. induction ops as [|op ops IH]; intros tb; [simpl; lia|].
  cbn [delivered registered]. specialize (IH (runOp op tb)).
  destruct op as [i|i|i]; destruct (decide (i = id)) as [->|Hi];
    rewrite ?bool_decide_eq_true_2, ?bool_decide_eq_false_2 by done;
    try (rewrite (pendingCount_other id) in IH by done; lia);
    revert IH; unfold pendingCount; simpl;
    unfold Add, RetrieveChan; destruct (content tb !! id) eqn:Hc; simpl;
    rewrite ?lookup_insert_eq, ?lookup_delete_eq, ?Hc; lia.
Qed.

(** C6.  A successful delivery by [route] takes the identifier out of the
    pending table: the identifier is absent afterwards, also once the
    [DropChan] goroutine that [route] started has run, and a further
    response frame with the same identifier gets the no-matching-id error
    and is discarded.  [DropChan] removes the identifier and changes nothing
    when it is absent.  Over any sequence of table operations the
    deliveries of an identifier never outnumber its registrations. *)
Theorem deliver_at_most_once (rpc : RPC.t) (net net' : Network)
    (respChan : chan) (ops : list tableOp) :
  route rpc net = (Delivered respChan rpc (RPC.id rpc), net') →
  content (tab net) !! RPC.id rpc = Some respChan ∧
  content (tab net') !! RPC.id rpc = None ∧
  RetrieveChan (RPC.id rpc) (tab net')
    = (None, Some NoMatchingRPCId, tab net') ∧
  route rpc net' = (LoggedAndDiscarded NoMatchingRPCId, net') ∧
  DropChan (RPC.id rpc) (tab net') = tab net' ∧
  content (DropChan (RPC.id rpc) (tab net)) !! RPC.id rpc = None ∧
  (delivered (RPC.id rpc) ops (tab net)
   ≤ registered (RPC.id rpc) ops (tab net) + 1)%nat.
Proof.
  unfold route. destruct (RPC.response rpc) eqn:Hresp; [|done].
  unfold RetrieveChan at 1.
  destruct (content (tab net) !! RPC.id rpc) as [ch|] eqn:Hin; [|done].
  intros [= <- <-]. simpl.
  assert (delete (RPC.id rpc) (content (tab net)) !! RPC.id rpc = None)
    as Hgone by apply lookup_delete_eq.
  split; [done|]. split; [done|].
  split; [by apply RetrieveChan_absent|].
  split; [by rewrite RetrieveChan_absent|].
  split; [by apply DropChan_absent|].
  split; [done|].
  pose proof (delivered_le_registered (RPC.id rpc) ops (tab net)) as Hle.
  unfold pendingCount in Hle. by rewrite Hin in Hle.
Qed.

Lemma deliver_at_most_once_witness :
  route pingReply (mkNetwork [] (mkTable {[mkID 77 := 4%nat]} 5))
  = (Delivered 4%nat pingReply (mkID 77),
     mkNetwork [] (mkTable (delete (mkID 77) {[mkID 77 := 4%nat]}) 5)) ∧
  route pingReply
    (mkNetwork [] (mkTable (delete (mkID 77) {[mkID 77 := 4%nat]}) 5))
  = (LoggedAndDiscarded NoMatchingRPCId,
     mkNetwork [] (mkTable (delete (mkID 77) {[mkID 77 := 4%nat]}) 5)) ∧
  (delivered (mkID 77)
     [OpRetrieveChan (mkID 77); OpDropChan (mkID 77);
      OpRetrieveChan (mkID 77)]
     (mkTable {[mkID 77 := 4%nat]} 5)
   ≤ registered (mkID 77)
       [OpRetrieveChan (mkID 77); OpDropChan (mkID 77);
        OpRetrieveChan (mkID 77)]
       (mkTable {[mkID 77 := 4%nat]} 5) + 1)%nat.
Proof.
  assert (route pingReply (mkNetwork [] (mkTable {[mkID 77 := 4%nat]} 5))
          = (Delivered 4%nat pingReply (mkID 77),
             mkNetwork []
               (mkTable (delete (mkID 77) {[mkID 77 := 4%nat]}) 5)))
    as Hroute by (vm_compute; reflexivity).
  destruct (deliver_at_most_once pingReply _ _ 4%nat
              [OpRetrieveChan (mkID 77); OpDropChan (mkID 77);
               OpRetrieveChan (mkID 77)] Hroute)
    as (_ & _ & _ & Hagain & _ & _ & Hcount).
  split; [exact Hroute|]. split; [exact Hagain|exact Hcount].
Defined.

(** ** Send *)

Lemma Send_response (rpc : RPC.t) (fresh : KadID)
    (events : list awaitEvent) (net : Network) :
  RPC.response rpc = true →
  Send rpc fresh events net
  = (Returns (rpc, None), mkNetwork (sender net ++ [rpc]) (tab net)).
Proof. intros H. unfold Send. by rewrite H. Qed.

Lemma awaitResponse_error_free (events : list awaitEvent) (res : RPC.t)
    (err : option error) :
  awaitResponse events = Returns (res, err) → err = None.
Proof.
  induction events as [|[r|d] events IH]; simpl; [done| |done].
  by intros [= _ <-].
Qed.

(** No call of [Send] returns an error. *)
Lemma Send_error_free (rpc : RPC.t) (fresh : KadID)
    (events : list awaitEvent) (net : Network) (res : RPC.t)
    (err : option error) :
  (Send rpc fresh events net).1 = Returns (res, err) → err = None.
Proof.
  unfold Send. destruct (RPC.response rpc); simpl.
  - by intros [= _ <-].
  - destruct (Add _ _) as [[respChan e] tab']. simpl.
    apply awaitResponse_error_free.
Qed.

Lemma awaitResponse_elapses (waits : list N) :
  awaitResponse (Elapses <$> waits) = Blocks.
Proof. by induction waits. Qed.

(** A request whose waiter is never written to keeps [Send] suspended, however
    much time passes, and its identifier stays in the pending table. *)
Lemma Send_request_waits (rpc : RPC.t) (fresh : KadID) (waits : list N)
    (net : Network) :
  RPC.response rpc = false →
  (Send rpc fresh (Elapses <$> waits) net).1 = Blocks ∧
  is_Some (content (tab (Send rpc fresh (Elapses <$> waits) net).2) !! fresh).
Proof.
  intros Hreq. unfold Send. rewrite Hreq. simpl.
  rewrite awaitResponse_elapses. unfold Add.
  destruct (content (tab net) !! fresh) eqn:Hin; simpl; split; try done;
    by rewrite ?Hin, ?lookup_insert_eq.
Qed.

(** When the drawn identifier is already pending, [Send] does not draw
    another one: the frame leaves with that identifier, the table is not
    changed, and the awaited channel is a new one held under no identifier. *)
Lemma Send_id_in_use (rpc : RPC.t) (fresh : KadID)
    (events : list awaitEvent) (net : Network) (old : chan) :
  RPC.response rpc = false →
  content (tab net) !! fresh = Some old →
  sender (Send rpc fresh events net).2
    = sender net ++ [RPC.withID rpc fresh] ∧
  content (tab (Send rpc fresh events net).2) = content (tab net).
Proof.
  intros Hreq Hin. unfold Send, Add. rewrite Hreq. simpl. by rewrite Hin.
Qed.

(** C1 (code defect).  A request sent on an idle network is registered and
    emitted, after which [Send] stays suspended although more than
    [TIMEOUT] has passed: no [Timeout] error is returned and the waiter is
    still in the pending table.  A second request that draws the identifier
    of a pending one is emitted under that identifier without a new draw. *)
Theorem Send_has_no_timeout :
  Send pingRequest (mkID 9) [Elapses TIMEOUT; Elapses 1] net0
  = (Blocks,
     mkNetwork [RPC.withID pingRequest (mkID 9)]
       (mkTable {[mkID 9 := 0%nat]} 1)) ∧
  Send pingRequest (mkID 9) [Elapses TIMEOUT; Elapses 1]
    (mkNetwork [] (mkTable {[mkID 9 := 0%nat]} 1))
  = (Blocks,
     mkNetwork [RPC.withID pingRequest (mkID 9)]
       (mkTable {[mkID 9 := 0%nat]} 2)).
Proof. split; vm_compute; reflexivity. Qed.

(** ** The iterative lookup *)

Lemma processFound_cut (contactList : list Contact) (target : KadID) :
  processFound contactList target
  = Some (cutToReplication
            (lastOfRuns
               (Nat.iter (length contactList - 1) (bubblePass target)
                  contactList))).
Proof.
  unfold processFound, cutToReplication.
  rewrite SortContactsByDistance_iter, RemoveDuplicateContacts_lastOfRuns.
  case_decide as Hlen; [|done].
  rewrite decide_True; [done|]. unfold CONCURRENCY, REPLICATION in *. lia.
Qed.

Lemma cutToReplication_length (l : list Contact) :
  (length (cutToReplication l) ≤ REPLICATION)%nat.
Proof.
  unfold cutToReplication. case_decide as Hlen.
  - rewrite length_take. lia.
  - unfold CONCURRENCY, REPLICATION in *. lia.
Qed.



(** Six distinct contacts are cut to three, not to [K] = 5. *)
Example processFound_six :
  processFound
    [mkContact 6 6; mkContact 5 5; mkContact 4 4; mkContact 3 3;
     mkContact 2 2; mkContact 1 1] (mkID 0)
  = Some [mkContact 1 1; mkContact 2 2; mkContact 3 3].
Proof. reflexivity. Qed.

Lemma lexCloser_wf : well_founded lexCloser.
Proof.
  assert (∀ n l, length l = n → Acc lexCloser l) as Hacc.
  { induction n as [|n IHn]; intros l Hlen.
    - destruct l; [|done]. constructor. intros y [Hy Hc].
      by destruct y.
    - destruct l as [|x l]; [done|]. injection Hlen as Hlen.
      revert l Hlen.
      induction (N.lt_wf_0 x) as [x _ IHx]. intros l Hlen.
      pose proof (IHn l Hlen) as Hl. revert Hlen.
      induction Hl as [l _ IHl]. intros Hlen.
      constructor. intros [|z y] [Hy Hc]; [done|].
      injection Hy as Hy. simpl in Hc.
      destruct (N.ltb_spec z x) as [Hzx|Hzx].
      + apply IHx; [done|lia].
      + destruct (N.ltb_spec x z) as [Hxz|Hxz]; [done|].
        assert (z = x) as -> by lia.
        apply IHl; [by split|lia]. }
  intros l. by apply (Hacc (length l)).
Qed.

Lemma closerTo_wf (t : KadID) : well_founded (closerTo t).
Proof.
  apply (wf_projected lexCloser (λ a, words (RelativeDistance a t)));
    [|apply lexCloser_wf].
  intros a b Hab. split; [by rewrite !words_length|exact Hab].
Qed.

Lemma findNodeRound_no_panic (replies : list (list Contact))
    (prev : list Contact) (target : KadID) :
  findNodeRound replies prev target ≠ Panics.
Proof.
  unfold findNodeRound. case_decide; [done|].
  rewrite processFound_cut.
  destruct (cutToReplication _) as [|c cl], prev as [|p pl]; try done.
  by destruct (CloserNode (ID c) (ID p) target).
Qed.

Lemma findNodeRound_waits (replies : list (list Contact))
    (prev : list Contact) (target : KadID) :
  findNodeRound replies prev target = Waits →
  (length replies < length prev)%nat.
Proof.
  unfold findNodeRound. case_decide; [done|].
  rewrite processFound_cut.
  destruct (cutToReplication _) as [|c cl], prev as [|p pl]; try done.
  by destruct (CloserNode (ID c) (ID p) target).
Qed.

(** The loop goes on only with a list whose head is strictly closer to the
    target than the head of the shortlist just queried. *)
Lemma findNodeRound_Continue (replies : list (list Contact))
    (prev : list Contact) (target : KadID) (next : list Contact) :
  findNodeRound replies prev target = Continue next →
  ∃ c p, head next = Some c ∧ head prev = Some p ∧
    CloserNode (ID c) (ID p) target = true.
Proof.
  unfold findNodeRound. case_decide; [done|].
  destruct prev as [|p pl]; [done|].
  destruct (processFound _ _) as [[|c cl]|]; try done.
  destruct (CloserNode (ID c) (ID p) target) eqn:Hc; [|done].
  intros [= <-]. by exists c, p.
Qed.

(** The loop returns either the shortlist just queried, when no candidate
    came back, or a candidate list whose head is not closer to the target
    than the head of that shortlist. *)
Lemma findNodeRound_Return (replies : list (list Contact))
    (prev : list Contact) (target : KadID) (found : list Contact) :
  findNodeRound replies prev target = Return found →
  found = prev ∨
  ∃ c p, head found = Some c ∧ head prev = Some p ∧
    CloserNode (ID c) (ID p) target = false.
Proof.
  unfold findNodeRound. case_decide; [done|].
  destruct (processFound _ _) as [[|c cl]|]; try done.
  - intros [= <-]. by left.
  - destruct prev as [|p pl]; [done|].
    destruct (CloserNode (ID c) (ID p) target) eqn:Hc; [done|].
    intros [= <-]. right. by exists c, p.
Qed.

(** From one queried shortlist to the next the head gets strictly closer
    to the target. *)
Lemma shortlists_descend (fuel : nat)
    (network : nat → list Contact → list (list Contact)) (round : nat)
    (prev : list Contact) (target : KadID) :
  Sorted (headCloser target) (shortlists fuel network round prev target).
Proof.
  revert round prev. induction fuel as [|fuel IH]; intros round prev;
    [constructor|].
  cbn [shortlists].
  destruct (findNodeRound (network round prev) prev target)
    as [next| | |] eqn:Hr; try by repeat constructor.
  constructor; [apply IH|].
  destruct fuel as [|fuel]; [constructor|].
  cbn [shortlists]. constructor.
  by apply findNodeRound_Continue in Hr.
Qed.

(** The loop always comes to an end: it returns a list, or it is left
    waiting for a reply that the network never gives. *)
Lemma findNodeLoop_finishes
    (network : nat → list Contact → list (list Contact))
    (target : KadID) (prev : list Contact) (round : nat) :
  ∃ fuel,
    match findNodeLoop fuel network round prev target with
    | Found _ => True
    | Stuck => ∃ r l, (length (network r l) < length l)%nat
    | Crashed | Unfinished => False
    end.
Proof.
  destruct prev as [|p pl]; [by exists 1%nat|].
  assert (∀ i, Acc (closerTo target) i → ∀ p pl round, ID p = i →
            ∃ fuel,
              match findNodeLoop fuel network round (p :: pl) target with
              | Found _ => True
              | Stuck => ∃ r l, (length (network r l) < length l)%nat
              | Crashed | Unfinished => False
              end) as Hmain.
  { clear p pl round. induction 1 as [i _ IH]. intros p pl round <-.
    destruct (findNodeRound (network round (p :: pl)) (p :: pl) target)
      as [next| | |] eqn:Hr.
    - pose proof Hr as Hr'.
      apply findNodeRound_Continue in Hr' as (c & p' & Hc & [= <-] & Hcl).
      destruct next as [|c' cl]; [done|]. injection Hc as ->.
      destruct (IH (ID c) Hcl c cl (S round) eq_refl) as [fuel Hfuel].
      exists (S fuel). cbn [findNodeLoop]. by rewrite Hr.
    - exists 1%nat. cbn [findNodeLoop]. by rewrite Hr.
    - exists 1%nat. cbn [findNodeLoop]. rewrite Hr.
      apply findNodeRound_waits in Hr. eauto.
    - by apply findNodeRound_no_panic in Hr. }
  eapply Hmain; [apply closerTo_wf|done].
Qed.

(** C3 (as the code has it).  An iteration that lets the loop go on has
    produced a candidate list whose head is strictly closer to the target
    than the head of the shortlist it queried; an iteration that ends the
    loop returns that shortlist, or a candidate list whose head is not
    closer than the shortlist's head; along the shortlists queried one
    after the other the head gets strictly closer; and the loop ends after
    finitely many iterations, with a list unless a reply never comes. *)
Theorem findNodeLoop_descends_until_stall
    (network : nat → list Contact → list (list Contact))
    (target : KadID) (prev : list Contact) (round : nat) :
  (∀ next,
     findNodeRound (network round prev) prev target = Continue next →
     ∃ c p, head next = Some c ∧ head prev = Some p ∧
       CloserNode (ID c) (ID p) target = true) ∧
  (∀ found,
     findNodeRound (network round prev) prev target = Return found →
     found = prev ∨
     ∃ c p, head found = Some c ∧ head prev = Some p ∧
       CloserNode (ID c) (ID p) target = false) ∧
  (∀ fuel,
     Sorted (headCloser target)
       (shortlists fuel network round prev target)) ∧
  (∃ fuel,
     match findNodeLoop fuel network round prev target with
     | Found _ => True
     | Stuck => ∃ r l, (length (network r l) < length l)%nat
     | Crashed | Unfinished => False
     end).
Proof.
  split; [apply findNodeRound_Continue|].
  split; [apply findNodeRound_Return|].
  split; [intros fuel; apply shortlists_descend|].
  apply findNodeLoop_finishes.
Qed.

Lemma findNodeLoop_descends_until_stall_witness :
  findNodeRound (demoNetwork 0 [mkContact 1 8]) [mkContact 1 8] (mkID 0)
    = Continue [mkContact 2 4] ∧
  CloserNode (mkID 4) (mkID 8) (mkID 0) = true ∧
  findNodeRound (demoNetwork 1 [mkContact 2 4]) [mkContact 2 4] (mkID 0)
    = Return [mkContact 3 6] ∧
  CloserNode (mkID 6) (mkID 4) (mkID 0) = false ∧
  findNodeLoop 2 demoNetwork 0 [mkContact 1 8] (mkID 0)
    = Found [mkContact 3 6].
Proof.
  destruct (findNodeLoop_descends_until_stall demoNetwork (mkID 0)
              [mkContact 1 8] 0) as (Hgo & _ & _ & _).
  destruct (findNodeLoop_descends_until_stall demoNetwork (mkID 0)
              [mkContact 2 4] 1) as (_ & Hend & _ & _).
  assert (findNodeRound (demoNetwork 0 [mkContact 1 8]) [mkContact 1 8]
            (mkID 0) = Continue [mkContact 2 4]) as H0 by reflexivity.
  assert (findNodeRound (demoNetwork 1 [mkContact 2 4]) [mkContact 2 4]
            (mkID 0) = Return [mkContact 3 6]) as H1 by reflexivity.
  destruct (Hgo _ H0) as (c & p & [= <-] & [= <-] & Hc).
  destruct (Hend _ H1) as [Hsame|(c & p & [= <-] & [= <-] & Hnc)];
    [discriminate|].
  split; [exact H0|]. split; [exact Hc|]. split; [exact H1|].
  split; [exact Hnc|reflexivity].
Defined.

(** C3 as stated fails: the list returned at the end can be headed by a
    contact that is farther from the target than the head of the last
    shortlist. *)
Lemma findNodeLoop_not_monotone :
  ¬ (∀ (replies : list (list Contact)) (prev : list Contact)
       (target : KadID) (found : list Contact) (c p : Contact),
       findNodeRound replies prev target = Return found →
       head found = Some c → head prev = Some p →
       CloserNode (ID p) (ID c) target = false).
Proof.
  intros Hclaim.
  specialize (Hclaim [[mkContact 3 6]] [mkContact 2 4] (mkID 0)
                [mkContact 3 6] (mkContact 3 6) (mkContact 2 4)
                eq_refl eq_refl eq_refl).
  discriminate.
Qed.

(** ** FindAccount *)

(** The count only depends on how many values are waiting in the channel,
    not on the values. *)
Lemma countFound_length (rounds : nat) (respChan : list bool) (k : nat) :
  countFound rounds respChan k
  = if decide (rounds ≤ length respChan)%nat then Returns (k + rounds)%nat
    else Blocks.
Proof.
  revert respChan k. induction rounds as [|n IH]; intros respChan k; simpl.
  - by rewrite Nat.add_0_r.
  - destruct respChan as [|v buf]; simpl; [done|].
    rewrite IH. repeat case_decide; try lia; try done.
    f_equal. lia.
Qed.

(** With a [Send] that returns no error, as the one of this package,
    [FindAccount] never returns a nil error: one query fills two of the
    three places of the channel, so a second query blocks, and a single
    reply is not [REPLICATION] replies. *)
Lemma FindAccount_never_succeeds (closeNodes found : list Contact)
    (send : Addr → outcome (RPC.t * option error)) (accID : KadID) :
  (∀ ip res e, send ip ≠ Returns (res, Some e)) →
  FindAccount closeNodes send accID ≠ Returns (found, None).
Proof.
  intros Hsend. unfold FindAccount.
  destruct closeNodes as [|n1 [|n2 rest]].
  - simpl. done.
  - simpl. destruct (send (IP n1)) as [[res [e|]]|] eqn:H1; [|simpl|done].
    { by apply Hsend in H1. }
    done.
  - cbn [queryAll].
    destruct (send (IP n1)) as [[res1 [e|]]|] eqn:H1; [|simpl|done].
    { by apply Hsend in H1. }
    destruct (send (IP n2)) as [[res2 [e|]]|] eqn:H2; [|simpl|done].
    { by apply Hsend in H2. }
    done.
Qed.

(** C4 (code defect).  Three close nodes that all confirm the account leave
    [FindAccount] blocked in its second query, and so do two; one close
    node that confirms yields the error.  The booleans are never read. *)
Theorem FindAccount_ignores_confirmations :
  FindAccount [mkContact 1 1; mkContact 2 2; mkContact 3 3]
    confirmingSend (mkID 42) = Blocks ∧
  FindAccount [mkContact 1 1; mkContact 2 2] confirmingSend (mkID 42)
    = Blocks ∧
  FindAccount [mkContact 1 1] confirmingSend (mkID 42)
    = Returns ([mkContact 1 1], Some (AccountNotLocated (mkID 42))).
Proof. repeat split; vm_compute; reflexivity. Qed.

Lemma FindAccount_over_Send_never_succeeds (closeNodes found : list Contact)
    (request : Addr → RPC.t) (fresh : Addr → KadID)
    (events : Addr → list awaitEvent) (net : Network) (accID : KadID) :
  FindAccount closeNodes
    (λ ip, (Send (request ip) (fresh ip) (events ip) net).1) accID
  ≠ Returns (found, None).
Proof.
  apply FindAccount_never_succeeds. intros ip res e Hsent.
  by apply Send_error_free in Hsent.
Qed.

(** ** Random numbers and the simulated network *)

Lemma RandU32_index (n x : N) :
  (0 < n < 2 ^ 32)%N → RandU32 0 n x = ((x mod n)%N, None).
Proof.
  intros [Hpos Hlt]. unfold RandU32.
  destruct (N.leb_spec n 0) as [Hle|_]; [lia|].
  rewrite N.sub_0_r, N.add_0_r. f_equal.
  apply N.mod_small. pose proof (N.mod_lt x n). lia.
Qed.

Lemma RandU32_invalid (x : N) : RandU32 0 0 x = (0%N, Some InvalidRange).
Proof. done. Qed.

(** The index computed by [randomNode] is within the node list as soon as
    the list is not empty. *)
Lemma randomNode_index (len : nat) (x : N) :
  (0 < len)%nat →
  (N.to_nat (RandU32 0 (N.of_nat len mod 2 ^ 32)%N x).1 < len)%nat.
Proof.
  intros Hlen.
  pose proof (N.Div0.mod_le (N.of_nat len) (2 ^ 32)%N) as Hle.
  pose proof (N.mod_lt (N.of_nat len) (2 ^ 32)%N ltac:(done)) as Hlt.
  destruct (decide (N.of_nat len mod 2 ^ 32 = 0)%N) as [->|Hne].
  - rewrite RandU32_invalid. simpl. lia.
  - rewrite RandU32_index by (split; [by apply N.neq_0_lt_0|done]). simpl.
    pose proof (N.mod_lt x (N.of_nat len mod 2 ^ 32)%N Hne) as Hx.
    revert Hle Hx. generalize (N.of_nat len mod 2 ^ 32)%N. lia.
Qed.

Lemma randomNode_is_Some (simnet : Simnet) (x : N) :
  nodes simnet ≠ [] →
  ∃ c, randomNode simnet x = Some c ∧ c ∈ nodes simnet.
Proof.
  intros Hne.
  assert (0 < length (nodes simnet))%nat as Hlen
    by (destruct (nodes simnet); [done|simpl; lia]).
  pose proof (randomNode_index _ x Hlen) as Hidx.
  unfold randomNode.
  destruct (RandU32 0 _ x) as [index err]. simpl in Hidx.
  destruct (lookup_lt_is_Some_2 _ _ Hidx) as [c Hc].
  exists c. split; [done|]. by eapply list_elem_of_lookup_2.
Qed.

(** C9 (as the code has it).  With at least one node in the registry,
    [randomNode] returns the contact at an index within the node list.
    With exactly one node, [RandU32(0, 1)] returns index 0 and no error; an
    error, with index 0, comes only when the node count is 0 modulo
    [2 ^ 32]. *)
Theorem randomNode_in_bounds (simnet : Simnet) (x : N) :
  nodes simnet ≠ [] →
  ∃ index err c,
    RandU32 0 (N.of_nat (length (nodes simnet)) mod 2 ^ 32)%N x
      = (index, err) ∧
    (N.to_nat index < length (nodes simnet))%nat ∧
    randomNode simnet x = Some c ∧
    nodes simnet !! N.to_nat index = Some c ∧
    c ∈ nodes simnet ∧
    (length (nodes simnet) = 1%nat → index = 0%N ∧ err = None) ∧
    (err ≠ None →
       index = 0%N ∧ (N.of_nat (length (nodes simnet)) mod 2 ^ 32 = 0)%N).
Proof.
  intros Hne.
  assert (0 < length (nodes simnet))%nat as Hlen
    by (destruct (nodes simnet); [done|simpl; lia]).
  pose proof (randomNode_index _ x Hlen) as Hidx.
  unfold randomNode.
  destruct (RandU32 0 _ x) as [index err] eqn:Hrand. simpl in Hidx.
  destruct (lookup_lt_is_Some_2 _ _ Hidx) as [c Hc].
  exists index, err, c. split; [done|]. split; [done|].
  split; [done|]. split; [done|].
  split; [by eapply list_elem_of_lookup_2|]. split.
  - intros H1. rewrite H1 in Hrand.
    change (N.of_nat 1 mod 2 ^ 32)%N with 1%N in Hrand.
    rewrite RandU32_index, N.mod_1_r in Hrand by done.
    by injection Hrand as <- <-.
  - intros Herr.
    destruct (decide (N.of_nat (length (nodes simnet)) mod 2 ^ 32 = 0)%N)
      as [H0|H0].
    + rewrite H0 in Hrand. by injection Hrand as <- <-.
    + pose proof (N.mod_lt (N.of_nat (length (nodes simnet)))
                    (2 ^ 32)%N ltac:(done)).
      rewrite RandU32_index in Hrand
        by (split; [by apply N.neq_0_lt_0|done]).
      by injection Hrand as <- <-.
Qed.

Lemma randomNode_in_bounds_witness :
  ∃ c,
    randomNode
      (mkSimnet {[mkIP 1 := 0%nat]} [mkContact 1 11] 0%Qc false) 7
    = Some c ∧
    c = mkContact 1 11 ∧
    RandU32 0 1 7 = (0%N, None).
Proof.
  destruct (randomNode_in_bounds
              (mkSimnet {[mkIP 1 := 0%nat]} [mkContact 1 11] 0%Qc false) 7)
    as (index & err & c & Hrand & _ & Hnode & Hc & _ & Hone & _);
    [discriminate|].
  exists c. split; [exact Hnode|].
  destruct (Hone eq_refl) as [-> ->].
  split; [|exact Hrand].
  simpl in Hc. congruence.
Defined.

(** C9 as stated fails: with one node, [RandU32(0, 1)] returns no error. *)
Lemma RandU32_one_node_no_error :
  ¬ (∀ x : N, (RandU32 0 1 x).2 = Some InvalidRange).
Proof. intros Hclaim. specialize (Hclaim 7%N). discriminate. Qed.

Lemma drawCount_0 (simnet : Simnet) (i : nat) : drawCount simnet i 0 = 0%N.
Proof. done. Qed.

Lemma drawCount_succ (simnet : Simnet) (i : nat) (b : N) :
  drawCount simnet i (N.succ b)
  = if selectsIndex simnet i b then N.succ (drawCount simnet i b)
    else drawCount simnet i b.
Proof. unfold drawCount. by rewrite N.peano_rect_succ. Qed.

Lemma succ_div_mod (b n : N) :
  (0 < n)%N →
  ((N.succ b mod n = 0 ∧ N.succ b / n = N.succ (b / n) ∧
    N.succ (b mod n) = n) ∨
   (N.succ b mod n = N.succ (b mod n) ∧ N.succ b / n = b / n ∧
    N.succ (b mod n) < n))%N.
Proof.
  intros Hn.
  pose proof (N.div_mod b n ltac:(lia)) as Hb.
  pose proof (N.mod_lt b n ltac:(lia)) as Hr.
  revert Hb Hr. generalize (b / n)%N (b mod n)%N. intros q r Hb Hr.
  destruct (decide (N.succ r = n)) as [Heq|Hneq].
  - left.
    assert (N.succ b = n * N.succ q + 0)%N as Hs by lia.
    split; [|split; [|done]].
    + symmetry. by apply (N.mod_unique _ n (N.succ q) 0%N).
    + symmetry. by apply (N.div_unique _ n (N.succ q) 0%N).
  - right.
    assert (N.succ b = n * q + N.succ r)%N as Hs by lia.
    assert (N.succ r < n)%N as Hlt by lia.
    split; [|split; [|done]].
    + symmetry. by apply (N.mod_unique _ n q (N.succ r)).
    + symmetry. by apply (N.div_unique _ n q (N.succ r)).
Qed.

(** How many of the draws below [bound] pick the contact at index [i]. *)
Lemma drawCount_formula (simnet : Simnet) (i : nat) (bound : N) :
  (0 < N.of_nat (length (nodes simnet)) < 2 ^ 32)%N →
  (i < length (nodes simnet))%nat →
  drawCount simnet i bound
  = (bound / N.of_nat (length (nodes simnet))
     + if N.of_nat i <? bound mod N.of_nat (length (nodes simnet))
       then 1 else 0)%N.
Proof.
  intros Hn Hi.
  assert (∀ x, selectsIndex simnet i x
               = bool_decide (x mod N.of_nat (length (nodes simnet))
                              = N.of_nat i)%N) as Hsel.
  { intros x. unfold selectsIndex.
    rewrite (N.mod_small (N.of_nat _)) by apply Hn.
    rewrite RandU32_index by done. simpl.
    apply bool_decide_ext. lia. }
  assert (N.of_nat i < N.of_nat (length (nodes simnet)))%N as Hk by lia.
  assert (0 < N.of_nat (length (nodes simnet)))%N as Hpos by apply Hn.
  clear Hn Hi. revert Hk Hpos Hsel.
  generalize (N.of_nat (length (nodes simnet))) (N.of_nat i).
  intros n k Hk Hn Hsel.
  induction bound as [|b IH] using N.peano_ind.
  - rewrite drawCount_0, N.Div0.div_0_l, N.Div0.mod_0_l.
    by destruct (N.ltb_spec k 0); [lia|].
  - rewrite drawCount_succ, Hsel, IH. clear IH Hsel.
    destruct (succ_div_mod b n Hn) as [(-> & -> & Hr)|(-> & -> & Hr)];
      revert Hr; generalize (b mod n)%N (b / n)%N; intros r q Hr;
      case_bool_decide; destruct (N.ltb_spec k r);
      try destruct (N.ltb_spec k 0);
      try destruct (N.ltb_spec k (N.succ r)); lia.
Qed.

(** C8 (as the code has it).  A frame for an address without mailbox is
    dropped.  An [ENTER] frame for an address with a mailbox gets, before
    the drop roll and the delivery, [response = true] and as [foundNodes]
    two contacts of the registry's node list, each picked by its own draw
    [x] of [rand.Uint32()] as the contact at index [x mod n].  Of the
    [2 ^ 32] draws, the contact at index [i] is picked by
    [2 ^ 32 / n] of them, and by one more when [i < 2 ^ 32 mod n]. *)
Theorem Route_drops_unknown_and_seeds_ENTER (simnet : Simnet) (rpc : RPC.t)
    (x1 x2 : N) (r : Qc) :
  (chanTable simnet !! RPC.receiver rpc = None →
     Route simnet rpc x1 x2 r = NoMailbox) ∧
  (∀ routeChan,
     chanTable simnet !! RPC.receiver rpc = Some routeChan →
     RPC.cmd rpc = ENTER → nodes simnet ≠ [] →
     ∃ n1 n2,
       randomNode simnet x1 = Some n1 ∧ randomNode simnet x2 = Some n2 ∧
       n1 ∈ nodes simnet ∧ n2 ∈ nodes simnet ∧
       RPC.foundNodes (RPC.asEnterReply rpc [n1; n2]) = [n1; n2] ∧
       RPC.response (RPC.asEnterReply rpc [n1; n2]) = true ∧
       Route simnet rpc x1 x2 r
       = if DropRoll simnet r
         then RollDropped (RPC.asEnterReply rpc [n1; n2])
         else SentTo routeChan (RPC.asEnterReply rpc [n1; n2])) ∧
  (∀ i : nat,
     (0 < N.of_nat (length (nodes simnet)) < 2 ^ 32)%N →
     (i < length (nodes simnet))%nat →
     drawCount simnet i (2 ^ 32)
     = (2 ^ 32 / N.of_nat (length (nodes simnet))
        + if N.of_nat i <? 2 ^ 32 mod N.of_nat (length (nodes simnet))
          then 1 else 0)%N).
Proof.
  split; [|split].
  - intros Hnone. unfold Route. by rewrite Hnone.
  - intros routeChan Hsome Hcmd Hne. unfold Route. rewrite Hsome.
    rewrite decide_True by done.
    destruct (randomNode_is_Some simnet x1 Hne) as (n1 & Hn1 & Hin1).
    destruct (randomNode_is_Some simnet x2 Hne) as (n2 & Hn2 & Hin2).
    exists n1, n2. rewrite Hn1, Hn2. by repeat split.
  - intros i. apply drawCount_formula.
Qed.

Lemma Route_drops_unknown_and_seeds_ENTER_witness :
  Route threeNodes enterRequest 4 (2 ^ 32 - 1) (Q2Qc (1 # 2))
  = SentTo 1%nat
      (RPC.asEnterReply enterRequest [mkContact 2 22; mkContact 1 11]) ∧
  drawCount threeNodes 0 (2 ^ 32) = 1431655766%N ∧
  drawCount threeNodes 1 (2 ^ 32) = 1431655765%N.
Proof.
  destruct (Route_drops_unknown_and_seeds_ENTER threeNodes enterRequest
              4 (2 ^ 32 - 1) (Q2Qc (1 # 2))) as (_ & Henter & Hcount).
  destruct (Henter 1%nat) as (n1 & n2 & Hn1 & Hn2 & _ & _ & _ & _ & HRoute);
    [reflexivity|reflexivity|discriminate|].
  injection Hn1 as <-. injection Hn2 as <-.
  split; [exact HRoute|].
  assert (0 < N.of_nat (length (nodes threeNodes)) < 2 ^ 32)%N as Hn
    by (split; reflexivity).
  split.
  - rewrite (Hcount 0%nat Hn) by (simpl; lia). reflexivity.
  - rewrite (Hcount 1%nat Hn) by (simpl; lia). reflexivity.
Defined.

(** C8 as stated fails on "uniformly": with three nodes in the registry the
    first contact is picked by one draw more than the second. *)
Lemma randomNode_not_uniform :
  ¬ (∀ (simnet : Simnet) (i j : nat),
       (i < length (nodes simnet))%nat → (j < length (nodes simnet))%nat →
       drawCount simnet i (2 ^ 32) = drawCount simnet j (2 ^ 32)).
Proof.
  intros Hclaim.
  assert (0 < N.of_nat (length (nodes threeNodes)) < 2 ^ 32)%N as Hn
    by (split; reflexivity).
  assert (0 < length (nodes threeNodes))%nat as H0 by (simpl; lia).
  assert (1 < length (nodes threeNodes))%nat as H1 by (simpl; lia).
  specialize (Hclaim threeNodes 0%nat 1%nat H0 H1).
  rewrite (drawCount_formula threeNodes 0 _ Hn H0) in Hclaim.
  rewrite (drawCount_formula threeNodes 1 _ Hn H1) in Hclaim.
  discriminate Hclaim.
Qed.

(** ** A few runs of the simulated network *)

Example Route_unknown_receiver :
  Route threeNodes
    (RPC.mk (mkID 5) PING false (mkContact 2 22) (mkIP 9) (mkID 0) [] false)
    0 0 0%Qc
  = NoMailbox.
Proof. reflexivity. Qed.

Example DropRoll_quarter :
  DropRoll (mkSimnet ∅ [] (Q2Qc (1 # 4)) false) (Q2Qc (1 # 8)) = true ∧
  DropRoll (mkSimnet ∅ [] (Q2Qc (1 # 4)) false) (Q2Qc (1 # 2)) = false ∧
  DropRoll (mkSimnet ∅ [] 0%Qc false) (Q2Qc (1 # 8)) = false.
Proof. repeat split; vm_compute; reflexivity. Qed.

Example Route_ping_delivered :
  Route threeNodes
    (RPC.mk (mkID 5) PING false (mkContact 2 22) (mkIP 3) (mkID 0) [] false)
    0 0 (Q2Qc (1 # 2))
  = SentTo 2%nat
      (RPC.mk (mkID 5) PING false (mkContact 2 22) (mkIP 3) (mkID 0) []
         false).
Proof. vm_compute. reflexivity. Qed.

(** * Further properties of the package *)

(** ** The orders on identifiers *)

Lemma closerFrom_trans (a b c : list N) :
  length a = length b → length b = length c →
  closerFrom a b = true → closerFrom b c = true → closerFrom a c = true.
Proof.
  revert b c; induction a as [|x a IH]; intros [|y b] [|z c]; simpl;
    try done.
  intros Hab Hbc. ltb_cases; try done; try lia.
  apply IH; lia.
Qed.

Lemma closerFrom_antisym (a b : list N) :
  length a = length b →
  closerFrom a b = false → closerFrom b a = false → a = b.
Proof.
  revert b; induction a as [|x a IH]; intros [|y b]; simpl; try done.
  intros Hab. ltb_cases; try done; try lia.
  intros Ha Hb. assert (x = y) as -> by lia. f_equal. apply IH; [lia|done..].
Qed.

Lemma largerFrom_closerFrom (a b : list N) :
  largerFrom a b = closerFrom b a.
Proof.
  revert b; induction a as [|x a IH]; intros [|y b]; simpl; try done.
  by rewrite IH.
Qed.

Lemma words_inj (a b : KadID) : words a = words b → a = b.
Proof.
  destruct a as [[[[a0 a1] a2] a3] a4], b as [[[[b0 b1] b2] b3] b4].
  by intros [= -> -> -> -> ->].
Qed.

Lemma CloserNode_antisym (a b t : KadID) :
  CloserNode a b t = false → CloserNode b a t = false → a = b.
Proof.
  intros Hab Hba. apply (RelativeDistance_inj a b t), words_inj.
  apply closerFrom_antisym; [by rewrite !words_length|done..].
Qed.

(** X1.  For every target, [CloserNode] is a strict total order on
    identifiers: no identifier is closer than itself, the relation is
    asymmetric and transitive, and of two different identifiers one is
    closer than the other. *)
Theorem CloserNode_strict_total_order (a b c t : KadID) :
  CloserNode a a t = false ∧
  (CloserNode a b t = true → CloserNode b a t = false) ∧
  (CloserNode a b t = true → CloserNode b c t = true →
   CloserNode a c t = true) ∧
  (CloserNode a b t = false → CloserNode b a t = false → a = b).
Proof.
  split; [apply closerFrom_irrefl|].
  split; [apply closerFrom_asym|].
  split; [|apply CloserNode_antisym].
  apply closerFrom_trans; by rewrite !words_length.
Qed.

Lemma CloserNode_strict_total_order_witness :
  CloserNode (mkID 5) (mkID 6) (mkID 4) = true ∧
  CloserNode (mkID 6) (mkID 1) (mkID 4) = true ∧
  CloserNode (mkID 5) (mkID 1) (mkID 4) = true ∧
  CloserNode (mkID 6) (mkID 5) (mkID 4) = false.
Proof.
  destruct (CloserNode_strict_total_order (mkID 5) (mkID 6) (mkID 1)
              (mkID 4)) as (_ & Hasym & Htrans & _).
  split; [reflexivity|]. split; [reflexivity|].
  split; [apply Htrans; reflexivity|apply Hasym; reflexivity].
Defined.

(** *** Lexicographic and numeric comparison *)

Lemma wordsValue_bound (ws : list N) :
  Forall (λ w, (w < 2 ^ 32)%N) ws →
  (wordsValue ws < (2 ^ 32) ^ N.of_nat (length ws))%N.
Proof.
  induction 1 as [|w ws Hw _ IH]; simpl wordsValue; [done|].
  replace (N.of_nat (length (w :: ws))) with (N.succ (N.of_nat (length ws)))
    by (simpl; lia).
  rewrite N.pow_succ_r'.
  revert IH. generalize (wordsValue ws).
  generalize ((2 ^ 32) ^ N.of_nat (length ws))%N.
  revert Hw. generalize (2 ^ 32)%N. intros B Hw P v Hv. nia.
Qed.

Lemma closerFrom_wordsValue (a b : list N) :
  length a = length b →
  Forall (λ w, (w < 2 ^ 32)%N) a → Forall (λ w, (w < 2 ^ 32)%N) b →
  closerFrom a b = true ↔ (wordsValue a < wordsValue b)%N.
Proof.
  revert b; induction a as [|x a IH]; intros [|y b]; simpl; try done.
  intros Hlen Ha Hb.
  apply Forall_cons in Ha as [_ Ha]. apply Forall_cons in Hb as [_ Hb].
  injection Hlen as Hlen. specialize (IH b Hlen Ha Hb).
  pose proof (wordsValue_bound a Ha) as Hva.
  pose proof (wordsValue_bound b Hb) as Hvb.
  rewrite <- Hlen in Hvb. revert IH Hva Hvb.
  generalize (wordsValue a) (wordsValue b).
  rewrite <- Hlen. generalize ((2 ^ 32) ^ N.of_nat (length a))%N.
  intros P va vb IH Hva Hvb.
  ltb_cases.
  - split; [intros _; nia|done].
  - split; [done|intros ?; nia].
  - assert (x = y) as -> by lia. rewrite IH. lia.
Qed.

Lemma lxor_word (x y : N) :
  (x < 2 ^ 32)%N → (y < 2 ^ 32)%N → (N.lxor x y < 2 ^ 32)%N.
Proof.
  intros Hx Hy.
  destruct (decide (N.lxor x y = 0%N)) as [->|Hne]; [done|].
  apply N.log2_lt_pow2; [lia|].
  eapply N.le_lt_trans; [apply N.log2_lxor|].
  apply N.max_lub_lt.
  - destruct (decide (x = 0%N)) as [->|Hx0]; [done|].
    apply N.log2_lt_pow2; [lia|done].
  - destruct (decide (y = 0%N)) as [->|Hy0]; [done|].
    apply N.log2_lt_pow2; [lia|done].
Qed.

Lemma RelativeDistance_wordsOK (a t : KadID) :
  wordsOK a → wordsOK t → wordsOK (RelativeDistance a t).
Proof.
  destruct a as [[[[a0 a1] a2] a3] a4], t as [[[[t0 t1] t2] t3] t4].
  unfold wordsOK; simpl. rewrite !Forall_cons.
  intros (?&?&?&?&?&_) (?&?&?&?&?&_).
  repeat split; try done; by apply lxor_word.
Qed.

(** X2.  On 32-bit words [CloserNode] compares the two XOR distances as
    160-bit numbers, and [LargerNode] compares the two identifiers as
    160-bit numbers. *)
Theorem CloserNode_numeric (a b t : KadID) :
  wordsOK a → wordsOK b → wordsOK t →
  (CloserNode a b t = true ↔
   (idValue (RelativeDistance a t) < idValue (RelativeDistance b t))%N) ∧
  (LargerNode a b = true ↔ (idValue b < idValue a)%N).
Proof.
  intros Ha Hb Ht. split.
  - apply closerFrom_wordsValue; [by rewrite !words_length|..];
      by apply RelativeDistance_wordsOK.
  - unfold LargerNode. rewrite largerFrom_closerFrom.
    apply closerFrom_wordsValue; [by rewrite !words_length|done..].
Qed.

Lemma CloserNode_numeric_witness :
  CloserNode (0, 0, 0, 2, 5)%N (0, 0, 0, 1, 0)%N (0, 0, 0, 3, 7)%N = true ∧
  LargerNode (0, 0, 0, 2, 5)%N (0, 0, 0, 1, 0)%N = true.
Proof.
  assert (∀ x : KadID,
            Forall (λ w, (w <? 2 ^ 32)%N = true) (words x) → wordsOK x)
    as Hok.
  { intros x Hx. eapply Forall_impl; [exact Hx|].
    intros w. apply N.ltb_lt. }
  destruct (CloserNode_numeric (0, 0, 0, 2, 5)%N (0, 0, 0, 1, 0)%N
              (0, 0, 0, 3, 7)%N) as [Hc Hl];
    [apply Hok; by repeat constructor..|].
  split; [apply Hc|apply Hl]; reflexivity.
Defined.

(** ** Random numbers *)

(** X3.  For bounds that fit 32 bits, [RandU32] returns a number of
    [[min, max)], namely [min + x mod (max - min)] for the draw [x], and no
    error when [min < max]; otherwise it returns 0 and an error. *)
Theorem RandU32_range (min max x : N) :
  (max < 2 ^ 32)%N →
  (min < max →
   ∃ v, RandU32 min max x = (v, None) ∧ (min ≤ v < max)%N ∧
        v = (min + x mod (max - min))%N)%N ∧
  ((max ≤ min)%N → RandU32 min max x = (0%N, Some InvalidRange)).
Proof.
  intros Hmax. unfold RandU32. split.
  - intros Hlt. destruct (N.leb_spec max min) as [Hle|_]; [lia|].
    pose proof (N.mod_lt x (max - min) ltac:(lia)) as Hx.
    revert Hx. generalize (x mod (max - min))%N. intros r Hr.
    exists (min + r)%N. rewrite (N.add_comm r min).
    rewrite N.mod_small by lia. split; [done|]. split; [lia|done].
  - intros Hle. by destruct (N.leb_spec max min) as [_|Hlt]; [|lia].
Qed.

Lemma RandU32_range_witness :
  ∃ v, RandU32 0 256 1000 = (v, None) ∧ (0 ≤ v < 256)%N ∧
    RandU32 7 7 1000 = (0%N, Some InvalidRange).
Proof.
  destruct (RandU32_range 0 256 1000) as [Hin _]; [reflexivity|].
  destruct Hin as (v & Hv & Hrange & _); [reflexivity|].
  destruct (RandU32_range 7 7 1000) as [_ Hout]; [reflexivity|].
  exists v. split; [exact Hv|]. split; [exact Hrange|].
  apply Hout. reflexivity.
Defined.

(** X4.  [RandomID] returns the first draw that is not the all-zero
    identifier, and so never the all-zero identifier; draws that are all
    zero keep it looping. *)
Theorem RandomID_first_nonzero (draws : list KadID) (res : KadID) :
  RandomID draws = Some res ↔
  res ≠ (0, 0, 0, 0, 0)%N ∧
  ∃ zeros rest, draws = zeros ++ res :: rest ∧
    Forall (λ d, d = (0, 0, 0, 0, 0)%N) zeros.
Proof.
  induction draws as [|d draws IH]; simpl.
  - split; [done|]. intros (_ & [|??] & ? & ? & _); done.
  - case_bool_decide as Hd.
    + rewrite IH. split.
      * intros (Hne & zeros & rest & -> & Hz).
        split; [done|]. exists (d :: zeros), rest. split; [done|].
        by constructor.
      * intros (Hne & zeros & rest & Heq & Hz). split; [done|].
        destruct zeros as [|z zeros]; simplify_eq/=.
        apply Forall_cons in Hz as [_ Hz]. by exists zeros, rest.
    + split.
      * intros [= ->]. split; [done|]. by exists [], draws.
      * intros (Hne & zeros & rest & Heq & Hz).
        destruct zeros as [|z zeros]; simplify_eq/=; [done|].
        by apply Forall_cons in Hz as [? _].
Qed.

(** ** Prefix lengths *)

Lemma LeadingZeros32_le (x : N) : (LeadingZeros32 x ≤ 32)%nat.
Proof. unfold LeadingZeros32. lia. Qed.

Lemma LeadingZeros32_32 (x : N) : LeadingZeros32 x = 32%nat ↔ x = 0%N.
Proof.
  unfold LeadingZeros32. destruct x as [|p]; simpl; [done|]. split; lia.
Qed.

(** More leading zeros make a smaller word. *)
Lemma LeadingZeros32_lt (x y : N) :
  (LeadingZeros32 y < LeadingZeros32 x)%nat → (x < y)%N.
Proof.
  unfold LeadingZeros32. intros Hlz.
  assert (N.size x < N.size y)%N as Hsize by lia.
  pose proof (N.size_gt x) as Hx. pose proof (N.size_le y) as Hy.
  assert (2 ^ N.size x ≤ 2 ^ N.pred (N.size y))%N as Hpow
    by (apply N.pow_le_mono_r; lia).
  assert (2 ^ N.size y = 2 * 2 ^ N.pred (N.size y))%N as Hsucc.
  { rewrite <- N.pow_succ_r'. f_equal. lia. }
  rewrite Hsucc in Hy. rewrite N.succ_double_spec in Hy.
  revert Hx Hy Hpow. generalize (2 ^ N.size x)%N (2 ^ N.pred (N.size y))%N.
  lia.
Qed.

Lemma prefixFrom_acc (a b : list N) (acc : nat) :
  prefixFrom a b acc = (acc + prefixFrom a b 0)%nat.
Proof.
  revert b acc. induction a as [|x a IH]; intros [|y b] acc; simpl;
    try lia.
  case_decide; [lia|]. rewrite IH, (IH _ (LeadingZeros32 _)). lia.
Qed.

Lemma prefixFrom_le (a b : list N) :
  (prefixFrom a b 0 ≤ 32 * length a)%nat.
Proof.
  revert b. induction a as [|x a IH]; intros [|y b]; simpl; try lia.
  pose proof (LeadingZeros32_le (N.lxor x y)).
  case_decide; [lia|]. rewrite prefixFrom_acc. specialize (IH b). lia.
Qed.

Lemma prefixFrom_sym (a b : list N) (acc : nat) :
  prefixFrom a b acc = prefixFrom b a acc.
Proof.
  revert b acc. induction a as [|x a IH]; intros [|y b] acc; simpl;
    try done.
  rewrite (N.lxor_comm y x). case_decide; [done|]. apply IH.
Qed.

Lemma prefixFrom_full (a b : list N) :
  length a = length b →
  prefixFrom a b 0 = (32 * length a)%nat ↔ a = b.
Proof.
  revert b. induction a as [|x a IH]; intros [|y b]; simpl; try done.
  intros [= Hlen].
  pose proof (LeadingZeros32_le (N.lxor x y)) as Hle.
  pose proof (LeadingZeros32_32 (N.lxor x y)) as H32.
  case_decide as Hseg.
  - split; [lia|]. intros [= -> ->].
    rewrite N.lxor_nilpotent in Hseg. by destruct Hseg.
  - assert (x = y) as -> by (apply N.lxor_eq, H32; lia).
    rewrite prefixFrom_acc. split.
    + intros Hfull. f_equal. apply (IH b Hlen). lia.
    + intros [= Hab]. apply (IH b Hlen) in Hab. lia.
Qed.

(** X5.  [DistPrefixLength] is symmetric, lies between 0 and 160, and is
    160 exactly for two equal identifiers. *)
Theorem DistPrefixLength_bounds (idA idB : KadID) :
  DistPrefixLength idA idB = DistPrefixLength idB idA ∧
  (DistPrefixLength idA idB ≤ 160)%nat ∧
  (DistPrefixLength idA idB = 160%nat ↔ idA = idB).
Proof.
  unfold DistPrefixLength. split; [apply prefixFrom_sym|]. split.
  - pose proof (prefixFrom_le (words idA) (words idB)) as Hle.
    rewrite words_length in Hle. lia.
  - pose proof (prefixFrom_full (words idA) (words idB)) as Hfull.
    rewrite !words_length in Hfull. rewrite (Hfull eq_refl).
    split; [apply words_inj|by intros ->].
Qed.

Lemma words_RelativeDistance (a t : KadID) :
  words (RelativeDistance a t) = zip_with N.lxor (words a) (words t).
Proof.
  by destruct a as [[[[a0 a1] a2] a3] a4], t as [[[[t0 t1] t2] t3] t4].
Qed.

Lemma prefixFrom_closerFrom (a b t : list N) :
  length a = length t → length b = length t →
  (prefixFrom b t 0 < prefixFrom a t 0)%nat →
  closerFrom (zip_with N.lxor a t) (zip_with N.lxor b t) = true.
Proof.
  revert a b. induction t as [|z t IH]; intros [|x a] [|y b]; simpl;
    try done; try lia.
  intros [= Ha] [= Hb].
  pose proof (LeadingZeros32_le (N.lxor x z)) as Hx.
  pose proof (LeadingZeros32_le (N.lxor y z)) as Hy.
  pose proof (LeadingZeros32_32 (N.lxor x z)) as Hx0.
  pose proof (LeadingZeros32_32 (N.lxor y z)) as Hy0.
  destruct (decide (LeadingZeros32 (N.lxor x z) ≠ 32%nat)) as [Hxn|Hxe],
    (decide (LeadingZeros32 (N.lxor y z) ≠ 32%nat)) as [Hyn|Hye].
  - intros Hlt. cbn [Nat.add] in Hlt. apply LeadingZeros32_lt in Hlt.
    by destruct (N.ltb_spec (N.lxor x z) (N.lxor y z)); [|lia].
  - intros Hlt. rewrite (prefixFrom_acc b t) in Hlt. lia.
  - intros _.
    assert (N.lxor x z = 0)%N as -> by (apply Hx0; lia).
    destruct (N.ltb_spec 0 (N.lxor y z)) as [|Hle]; [done|].
    assert (N.lxor y z = 0)%N as Hy' by lia. apply Hy0 in Hy'. done.
  - assert (N.lxor x z = 0)%N as -> by (apply Hx0; lia).
    assert (N.lxor y z = 0)%N as -> by (apply Hy0; lia).
    rewrite (prefixFrom_acc a t), (prefixFrom_acc b t). simpl.
    intros Hlt. apply IH; [done..|lia].
Qed.

(** X6.  An identifier that shares a longer prefix with the target than
    another one is closer to the target. *)
Theorem longer_prefix_is_closer (a b target : KadID) :
  (DistPrefixLength b target < DistPrefixLength a target)%nat →
  CloserNode a b target = true.
Proof.
  intros Hlt. unfold CloserNode. rewrite !words_RelativeDistance.
  apply prefixFrom_closerFrom; [by rewrite !words_length..|done].
Qed.

Lemma longer_prefix_is_closer_witness :
  DistPrefixLength (mkID 9) (mkID 1) = 156%nat ∧
  DistPrefixLength (mkID 3) (mkID 1) = 158%nat ∧
  CloserNode (mkID 3) (mkID 9) (mkID 1) = true.
Proof.
  split; [reflexivity|]. split; [reflexivity|].
  apply longer_prefix_is_closer. vm_compute. lia.
Defined.

(** ** More on sorting and deduplication *)

Lemma sublist_sorted {A : Type} (R : relation A) (l1 l2 : list A) :
  l1 `sublist_of` l2 → StronglySorted R l2 → StronglySorted R l1.
Proof.
  induction 1 as [|x l1 l2 Hsub IH|x l1 l2 Hsub IH]; intros Hs; [done|..];
    apply StronglySorted_inv in Hs as [Hs Hx].
  - constructor; [by apply IH|].
    apply Forall_forall. intros z Hz.
    apply (proj1 (Forall_forall _ _) Hx). by eapply sublist_subseteq.
  - by apply IH.
Qed.

Lemma filter_none {A : Type} (P : A → Prop) `{∀ x, Decision (P x)}
    (l : list A) :
  (∀ z, z ∈ l → ¬ P z) → filter P l = [].
Proof.
  induction l as [|x l IH]; intros Hl; [done|].
  rewrite filter_cons, decide_False by (apply Hl, elem_of_cons; by left).
  apply IH. intros z Hz. apply Hl, elem_of_cons. by right.
Qed.

Section SortMore.

Context (t : KadID).

Lemma bubble_filter (i : KadID) (l : list Contact) (a : Contact) :
  filter (λ c, ID c = i) (bubble t a l) = filter (λ c, ID c = i) (a :: l).
Proof.
  revert a. induction l as [|b l IH]; intros a; [done|].
  cbn [bubble]. destruct (swapNeeded t a b) eqn:Hswap.
  - rewrite swapNeeded_closer in Hswap.
    assert (ID a ≠ ID b) as Hne.
    { intros Heq. rewrite Heq in Hswap.
      unfold CloserNode in Hswap. by rewrite closerFrom_irrefl in Hswap. }
    rewrite (filter_cons _ b), IH, !filter_cons.
    repeat case_decide; congruence.
  - by rewrite (filter_cons _ a), IH, !filter_cons.
Qed.

Lemma bubblePass_iter_filter (i : KadID) (n : nat) (l : list Contact) :
  filter (λ c, ID c = i) (Nat.iter n (bubblePass t) l)
  = filter (λ c, ID c = i) l.
Proof.
  induction n as [|n IH]; [done|].
  simpl. destruct (Nat.iter n (bubblePass t) l) as [|a l'] eqn:Hl; [done|].
  simpl. by rewrite bubble_filter.
Qed.

Lemma bubblePass_sorted (l : list Contact) :
  StronglySorted (notFarther t) l → bubblePass t l = l.
Proof.
  destruct l as [|a l]; [done|]. intros Hs.
  apply StronglySorted_inv in Hs as [Hs Ha].
  pose proof (bubble_sorted_suffix t [] l a Hs) as Hfix.
  simpl in Hfix. apply Hfix. by constructor.
Qed.

Lemma bubblePass_iter_sorted (n : nat) (l : list Contact) :
  StronglySorted (notFarther t) l → Nat.iter n (bubblePass t) l = l.
Proof.
  intros Hs. induction n as [|n IH]; [done|].
  simpl. rewrite IH. by apply bubblePass_sorted.
Qed.

Lemma notFarther_antisym (a b : Contact) :
  notFarther t a b → notFarther t b a → ID a = ID b.
Proof. intros Hab Hba. by apply (CloserNode_antisym (ID a) (ID b) t). Qed.

Lemma closerContact_trans (a b c : Contact) :
  closerContact t a b → closerContact t b c → closerContact t a c.
Proof. apply closerFrom_trans; by rewrite !words_length. Qed.

Lemma noEqualNeighbours_tail (a : Contact) (l : list Contact) :
  noEqualNeighbours (a :: l) → noEqualNeighbours l.
Proof. intros H i x y Hx Hy. by apply (H (S i) x y). Qed.

(** A sorted list without equal neighbours is strictly ascending. *)
Lemma sorted_distinct_strict (l : list Contact) :
  StronglySorted (notFarther t) l → noEqualNeighbours l →
  StronglySorted (closerContact t) l.
Proof.
  induction 1 as [|x l Hs IH Hx]; intros Hadj; [constructor|].
  specialize (IH (noEqualNeighbours_tail _ _ Hadj)).
  constructor; [done|].
  destruct l as [|h l]; [constructor|].
  assert (closerContact t x h) as Hxh.
  { unfold closerContact.
    destruct (CloserNode (ID x) (ID h) t) eqn:Hc; [done|].
    apply Forall_cons in Hx as [Hxh _]. exfalso.
    apply (Hadj 0%nat x h eq_refl eq_refl).
    by apply notFarther_antisym. }
  constructor; [done|].
  apply StronglySorted_inv in IH as [_ Hh].
  eapply Forall_impl; [exact Hh|]. intros z Hz.
  by eapply closerContact_trans.
Qed.

Lemma lastOfRuns_sorted (l : list Contact) :
  StronglySorted (notFarther t) l →
  StronglySorted (closerContact t) (lastOfRuns l).
Proof.
  intros Hs. apply sorted_distinct_strict.
  - eapply sublist_sorted; [apply lastOfRuns_sublist|done].
  - intros i a b. apply lastOfRuns_no_adjacent.
Qed.

(** In a sorted list, the contact that deduplication keeps for an
    identifier is the last contact of the list with that identifier. *)
Lemma lastOfRuns_last (l : list Contact) (c : Contact) :
  StronglySorted (notFarther t) l → c ∈ lastOfRuns l →
  last (filter (λ x, ID x = ID c) l) = Some c.
Proof.
  induction 1 as [|y l Hs IH Hy]; [by intros ?%elem_of_nil|].
  rewrite lastOfRuns_cons. unfold keepLast.
  pose proof (lastOfRuns_head l) as Hhead.
  assert (c ∈ lastOfRuns l →
          last (filter (λ x, ID x = ID c) (y :: l)) = Some c) as Hin.
  { intros Hc. specialize (IH Hc). rewrite filter_cons.
    case_decide; [|done].
    destruct (filter (λ x, ID x = ID c) l); [done|]. by rewrite last_cons, IH. }
  destruct (lastOfRuns l) as [|x r] eqn:Hr.
  - apply lastOfRuns_nil in Hr as ->. by intros ->%list_elem_of_singleton;
      rewrite filter_cons, decide_True.
  - case_bool_decide as Hxy; [done|].
    intros [->|Hc]%elem_of_cons; [|by apply Hin].
    rewrite filter_cons, decide_True by done.
    destruct l as [|h l]; [done|]. simpl in Hhead. injection Hhead as Hh.
    assert (filter (λ x0, ID x0 = ID y) (h :: l) = []) as ->; [|done].
    apply filter_none. intros z Hz Hzy.
    apply Hxy. rewrite Hh.
    pose proof (proj1 (Forall_forall _ _) Hy) as Hyall.
    assert (notFarther t y h) as Hyh by (apply Hyall, elem_of_cons; by left).
    assert (notFarther t h z) as Hhz.
    { apply elem_of_cons in Hz as [Hz|Hz]; [rewrite Hz; apply notFarther_refl|].
      apply StronglySorted_inv in Hs as [_ Hh'].
      by apply (proj1 (Forall_forall _ _) Hh'). }
    apply (notFarther_antisym h y); [|done].
    unfold notFarther in *. by rewrite <- Hzy.
Qed.

Lemma lastOfRuns_covers (l : list Contact) (c : Contact) :
  c ∈ l → ∃ c', c' ∈ lastOfRuns l ∧ ID c' = ID c.
Proof.
  induction l as [|y l IH]; [by intros ?%elem_of_nil|].
  rewrite lastOfRuns_cons. unfold keepLast.
  destruct (lastOfRuns l) as [|x r] eqn:Hr.
  - apply lastOfRuns_nil in Hr as ->.
    intros ->%list_elem_of_singleton. exists y.
    by split; [apply list_elem_of_singleton|].
  - intros [->|Hc]%elem_of_cons.
    + case_bool_decide; [exists x|exists y];
        by split; [apply elem_of_cons; left|].
    + destruct (IH Hc) as (c' & Hc' & Heq).
      exists c'. split; [|done].
      case_bool_decide; [done|]. apply elem_of_cons. by right.
Qed.

End SortMore.

Lemma lastOfRuns_idemp (l : list Contact) :
  lastOfRuns (lastOfRuns l) = lastOfRuns l.
Proof.
  induction l as [|y l IH]; [done|].
  rewrite lastOfRuns_cons. unfold keepLast at 1.
  destruct (lastOfRuns l) as [|x r] eqn:Hr; [reflexivity|].
  case_bool_decide as Hxy.
  - rewrite IH. simpl. by rewrite bool_decide_eq_true_2.
  - by rewrite lastOfRuns_cons, IH.
Qed.

(** X7.  [SortContactsByDistance] is stable: the contacts that carry one
    identifier come out in the order in which they went in. *)
Theorem SortContactsByDistance_stable (input : list Contact)
    (target id : KadID) :
  ∃ out, SortContactsByDistance input target = Some out ∧
    filter (λ c, ID c = id) out = filter (λ c, ID c = id) input.
Proof.
  eexists. split; [apply SortContactsByDistance_iter|].
  apply bubblePass_iter_filter.
Qed.

(** X8.  Sorting again changes nothing: the result of
    [SortContactsByDistance] is a fixed point of it. *)
Theorem SortContactsByDistance_idempotent (input : list Contact)
    (target : KadID) :
  ∃ out, SortContactsByDistance input target = Some out ∧
    SortContactsByDistance out target = Some out.
Proof.
  eexists. split; [apply SortContactsByDistance_iter|].
  rewrite SortContactsByDistance_iter. f_equal.
  apply bubblePass_iter_sorted, bubble_iter_sorted.
Qed.

(** X9.  [RemoveDuplicateContacts] never makes the slice longer, and
    applying it again changes nothing. *)
Theorem RemoveDuplicateContacts_idempotent (set : list Contact) :
  ∃ out, RemoveDuplicateContacts set = Some out ∧
    (length out ≤ length set)%nat ∧
    RemoveDuplicateContacts out = Some out.
Proof.
  exists (lastOfRuns set).
  split; [apply RemoveDuplicateContacts_lastOfRuns|].
  split; [apply sublist_length, lastOfRuns_sublist|].
  by rewrite RemoveDuplicateContacts_lastOfRuns, lastOfRuns_idemp.
Qed.

(** ** Merging *)

Lemma MergeContactsByDistance_lastOfRuns (setA setB : list Contact)
    (t : KadID) :
  MergeContactsByDistance setA setB t
  = Some (lastOfRuns
            (Nat.iter (length (setA ++ setB) - 1) (bubblePass t)
               (setA ++ setB))).
Proof.
  unfold MergeContactsByDistance.
  by rewrite SortContactsByDistance_iter, RemoveDuplicateContacts_lastOfRuns.
Qed.

Lemma sorted_dedup_covers (t : KadID) (l : list Contact) (c : Contact) :
  c ∈ l →
  ∃ c', c' ∈ lastOfRuns (Nat.iter (length l - 1) (bubblePass t) l) ∧
        ID c' = ID c.
Proof.
  intros Hc. apply lastOfRuns_covers.
  by rewrite (bubblePass_iter_perm t).
Qed.

Lemma sorted_dedup_from (t : KadID) (l : list Contact) (c : Contact) :
  c ∈ lastOfRuns (Nat.iter (length l - 1) (bubblePass t) l) → c ∈ l.
Proof.
  intros Hc. rewrite <- (bubblePass_iter_perm t (length l - 1) l).
  by eapply sublist_subseteq; [apply lastOfRuns_sublist|].
Qed.

(** X10.  [MergeContactsByDistance] returns the contacts in strictly
    ascending distance to the target, so that no identifier occurs twice;
    every contact of the result comes from one of the two slices, and every
    identifier of the two slices occurs in the result. *)
Theorem MergeContactsByDistance_strictly_ascending (setA setB : list Contact)
    (target : KadID) :
  ∃ out, MergeContactsByDistance setA setB target = Some out ∧
    (∀ (i j : nat) (a b : Contact),
       (i < j)%nat → out !! i = Some a → out !! j = Some b →
       CloserNode (ID a) (ID b) target = true) ∧
    (∀ c, c ∈ out → c ∈ setA ++ setB) ∧
    (∀ c, c ∈ setA ++ setB → ∃ c', c' ∈ out ∧ ID c' = ID c).
Proof.
  eexists. split; [apply MergeContactsByDistance_lastOfRuns|].
  split; [|split].
  - intros i j a b Hij Ha Hb.
    by eapply (StronglySorted_lookup_lt (closerContact target) _ i j a b);
      [apply lastOfRuns_sorted, bubble_iter_sorted|..].
  - apply sorted_dedup_from.
  - apply sorted_dedup_covers.
Qed.

Lemma MergeContactsByDistance_strictly_ascending_witness :
  ∃ out,
    MergeContactsByDistance [mkContact 1 9; mkContact 2 3]
      [mkContact 3 7; mkContact 4 3] (mkID 1) = Some out ∧
    out = [mkContact 4 3; mkContact 3 7; mkContact 1 9] ∧
    CloserNode (mkID 3) (mkID 9) (mkID 1) = true.
Proof.
  destruct (MergeContactsByDistance_strictly_ascending
              [mkContact 1 9; mkContact 2 3] [mkContact 3 7; mkContact 4 3]
              (mkID 1)) as (out & Hm & Hasc & _ & _).
  exists out. split; [exact Hm|].
  assert (Some out = Some [mkContact 4 3; mkContact 3 7; mkContact 1 9])
    as Hout by (rewrite <- Hm; reflexivity).
  injection Hout as Hout. split; [exact Hout|].
  apply (Hasc 0%nat 2%nat (mkContact 4 3) (mkContact 1 9));
    [lia|by rewrite Hout..].
Defined.

(** X11.  Of the contacts of the two slices that carry one identifier,
    [MergeContactsByDistance] keeps the last one, in the order first slice,
    then second slice: on an identifier held by both, the contact of the
    second slice stays. *)
Theorem MergeContactsByDistance_keeps_last (setA setB : list Contact)
    (target : KadID) :
  ∃ out, MergeContactsByDistance setA setB target = Some out ∧
    ∀ c, c ∈ out →
      last (filter (λ x, ID x = ID c) (setA ++ setB)) = Some c.
Proof.
  eexists. split; [apply MergeContactsByDistance_lastOfRuns|].
  intros c Hc.
  rewrite <- (bubblePass_iter_filter target (ID c)
                (length (setA ++ setB) - 1) (setA ++ setB)).
  by apply (lastOfRuns_last target); [apply bubble_iter_sorted|].
Qed.

Lemma MergeContactsByDistance_keeps_last_witness :
  ∃ out,
    MergeContactsByDistance [mkContact 1 9; mkContact 2 3]
      [mkContact 3 7; mkContact 4 3] (mkID 1) = Some out ∧
    mkContact 4 3 ∈ out ∧
    last (filter (λ x, ID x = mkID 3)
            ([mkContact 1 9; mkContact 2 3] ++ [mkContact 3 7; mkContact 4 3]))
    = Some (mkContact 4 3).
Proof.
  destruct (MergeContactsByDistance_keeps_last
              [mkContact 1 9; mkContact 2 3] [mkContact 3 7; mkContact 4 3]
              (mkID 1)) as (out & Hm & Hlast).
  exists out. split; [exact Hm|].
  assert (Some out = Some [mkContact 4 3; mkContact 3 7; mkContact 1 9])
    as Hout by (rewrite <- Hm; reflexivity).
  injection Hout as Hout.
  assert (mkContact 4 3 ∈ out) as Hin by (rewrite Hout; apply list_elem_of_here).
  split; [exact Hin|]. exact (Hlast _ Hin).
Defined.

(** ** Slice membership *)

Lemma SliceContains_true (id : KadID) (slice : list Contact) :
  SliceContains id slice = true ↔ ∃ c, c ∈ slice ∧ ID c = id.
Proof.
  induction slice as [|node slice IH]; simpl.
  - split; [done|]. by intros (c & ?%elem_of_nil & _).
  - case_bool_decide as Hid.
    + split; [|done]. intros _. exists node.
      by split; [apply list_elem_of_here|].
    + rewrite IH. split.
      * intros (c & Hc & Heq). exists c.
        by split; [apply list_elem_of_further|].
      * intros (c & [->|Hc]%elem_of_cons & Heq); [done|by exists c].
Qed.

Lemma SliceContainsAll_true (sliceA sliceB : list Contact) :
  SliceContainsAll sliceA sliceB = true ↔
  ∀ c, c ∈ sliceA → ∃ c', c' ∈ sliceB ∧ ID c' = ID c.
Proof.
  induction sliceA as [|node sliceA IH]; simpl.
  - split; [|done]. by intros _ c ?%elem_of_nil.
  - destruct (SliceContains (ID node) sliceB) eqn:Hn; simpl.
    + rewrite IH. apply SliceContains_true in Hn. split.
      * intros Hall c [->|Hc]%elem_of_cons; [done|by apply Hall].
      * intros Hall c Hc. by apply Hall, list_elem_of_further.
    + split; [done|]. intros Hall.
      destruct (Hall node (list_elem_of_here _ _)) as (c' & Hc' & Heq).
      assert (SliceContains (ID node) sliceB = true) as Hyes
        by (apply SliceContains_true; by exists c').
      congruence.
Qed.

(** X12.  [SliceContainsAll(A, B)] is true exactly when every identifier
    of A is carried by a contact of B; the merge of two slices contains all
    of the first and all of the second, and nothing else. *)
Theorem SliceContainsAll_merge (sliceA sliceB : list Contact)
    (target : KadID) :
  (SliceContainsAll sliceA sliceB = true ↔
   ∀ c, c ∈ sliceA → ∃ c', c' ∈ sliceB ∧ ID c' = ID c) ∧
  ∃ out, MergeContactsByDistance sliceA sliceB target = Some out ∧
    SliceContainsAll sliceA out = true ∧
    SliceContainsAll sliceB out = true ∧
    SliceContainsAll out (sliceA ++ sliceB) = true.
Proof.
  split; [apply SliceContainsAll_true|].
  eexists. split; [apply MergeContactsByDistance_lastOfRuns|].
  split; [|split]; apply SliceContainsAll_true; intros c Hc.
  - apply sorted_dedup_covers, elem_of_app. by left.
  - apply sorted_dedup_covers, elem_of_app. by right.
  - exists c. split; [|done]. by eapply sorted_dedup_from.
Qed.

(** ** What a lookup round keeps and what the lookup returns *)

Lemma cutToReplication_sublist (l : list Contact) :
  cutToReplication l `sublist_of` l.
Proof. unfold cutToReplication. case_decide; [apply sublist_take|done]. Qed.

Lemma processFound_strict (contactList : list Contact) (t : KadID)
    (out : list Contact) :
  processFound contactList t = Some out →
  (length out ≤ 3)%nat ∧ StronglySorted (closerContact t) out.
Proof.
  rewrite processFound_cut. intros [= <-].
  split; [apply cutToReplication_length|].
  eapply sublist_sorted; [apply cutToReplication_sublist|].
  apply lastOfRuns_sorted, bubble_iter_sorted.
Qed.

(** X13.  A lookup round keeps the closest identifiers it was told: the
    candidate list is strictly ascending in distance, and every contact of
    the replies either has its identifier in the list or is farther from
    the target than each of the three contacts of the list. *)
Theorem processFound_keeps_closest (contactList : list Contact)
    (target : KadID) :
  ∃ out, processFound contactList target = Some out ∧
    (∀ (i j : nat) (a b : Contact),
       (i < j)%nat → out !! i = Some a → out !! j = Some b →
       CloserNode (ID a) (ID b) target = true) ∧
    (∀ c, c ∈ out → c ∈ contactList) ∧
    (∀ c, c ∈ contactList →
       (∃ c', c' ∈ out ∧ ID c' = ID c) ∨
       (length out = 3%nat ∧
        ∀ e, e ∈ out → CloserNode (ID e) (ID c) target = true)).
Proof.
  eexists. split; [apply processFound_cut|].
  set (D := lastOfRuns (Nat.iter (length contactList - 1)
                          (bubblePass target) contactList)).
  assert (StronglySorted (closerContact target) D) as HD
    by apply lastOfRuns_sorted, bubble_iter_sorted.
  split; [|split].
  - intros i j a b Hij Ha Hb.
    eapply (StronglySorted_lookup_lt (closerContact target) _ i j a b);
      [|done..].
    eapply sublist_sorted; [apply cutToReplication_sublist|done].
  - intros c Hc. apply (sorted_dedup_from target).
    by eapply sublist_subseteq; [apply cutToReplication_sublist|].
  - intros c Hc.
    destruct (sorted_dedup_covers target contactList c Hc)
      as (c' & Hc' & Heq).
    fold D in Hc'. unfold cutToReplication.
    case_decide as Hlen; [|left; by exists c'].
    apply list_elem_of_lookup in Hc' as [k Hk].
    destruct (decide (k < 3)%nat) as [Hk3|Hk3].
    + left. exists c'. split; [|done].
      apply list_elem_of_lookup. exists k.
      by rewrite lookup_take_lt.
    + right. split.
      { rewrite length_take. unfold CONCURRENCY, REPLICATION in *. lia. }
      intros e [j He]%list_elem_of_lookup.
      pose proof (lookup_lt_Some _ _ _ He) as Hj.
      rewrite length_take in Hj.
      rewrite lookup_take_lt in He by (unfold REPLICATION in *; lia).
      rewrite <- Heq.
      apply (StronglySorted_lookup_lt (closerContact target) D j k e c');
        [done|unfold REPLICATION in *; lia|done..].
Qed.

Lemma processFound_keeps_closest_witness :
  ∃ out,
    processFound
      [mkContact 6 6; mkContact 5 5; mkContact 4 4; mkContact 3 3;
       mkContact 2 2; mkContact 1 1] (mkID 0) = Some out ∧
    out = [mkContact 1 1; mkContact 2 2; mkContact 3 3] ∧
    CloserNode (mkID 3) (mkID 5) (mkID 0) = true.
Proof.
  destruct (processFound_keeps_closest
              [mkContact 6 6; mkContact 5 5; mkContact 4 4; mkContact 3 3;
               mkContact 2 2; mkContact 1 1] (mkID 0))
    as (out & Hp & _ & _ & Hclosest).
  exists out. split; [exact Hp|].
  assert (Some out = Some [mkContact 1 1; mkContact 2 2; mkContact 3 3])
    as Hout by (rewrite <- Hp; reflexivity).
  injection Hout as Hout. split; [exact Hout|].
  destruct (Hclosest (mkContact 5 5)) as [(c' & Hc' & Heq)|[_ Hfar]].
  - apply list_elem_of_further, list_elem_of_here.
  - rewrite Hout in Hc'.
    repeat (apply elem_of_cons in Hc' as [->|Hc']; [discriminate|]).
    by apply elem_of_nil in Hc'.
  - apply (Hfar (mkContact 3 3)). rewrite Hout.
    do 2 apply list_elem_of_further. apply list_elem_of_here.
Defined.

Lemma findNodeRound_strict (replies : list (list Contact))
    (prev : list Contact) (t : KadID) (l : list Contact) :
  findNodeRound replies prev t = Continue l ∨
  findNodeRound replies prev t = Return l →
  l = prev ∨ ((length l ≤ 3)%nat ∧ StronglySorted (closerContact t) l).
Proof.
  unfold findNodeRound. case_decide; [by intros [?|?]|].
  destruct (processFound _ _) as [out|] eqn:Hout; [|by intros [?|?]].
  apply processFound_strict in Hout.
  destruct out as [|c cl].
  - intros [?|[= <-]]; [done|by left].
  - destruct prev as [|p pl].
    + intros [[= <-]|?]; [by right|done].
    + destruct (CloserNode (ID c) (ID p) t); intros [[= <-]|[= <-]];
        by right.
Qed.

(** X14.  Whatever the network answers, the list that [findNodeLoop]
    returns is the list it was started with, or a list of at most three
    contacts in strictly ascending distance to the target (and so without
    a repeated identifier). *)
Theorem findNodeLoop_result_shape (fuel : nat)
    (network : nat → list Contact → list (list Contact)) (round : nat)
    (prevContactList : list Contact) (target : KadID)
    (found : list Contact) :
  findNodeLoop fuel network round prevContactList target = Found found →
  found = prevContactList ∨
  ((length found ≤ 3)%nat ∧
   ∀ (i j : nat) (a b : Contact),
     (i < j)%nat → found !! i = Some a → found !! j = Some b →
     CloserNode (ID a) (ID b) target = true).
Proof.
  assert (∀ l, (length l ≤ 3)%nat ∧ StronglySorted (closerContact target) l →
            (length l ≤ 3)%nat ∧
            ∀ (i j : nat) (a b : Contact),
              (i < j)%nat → l !! i = Some a → l !! j = Some b →
              CloserNode (ID a) (ID b) target = true) as Hshape.
  { intros l [Hlen Hs]. split; [done|]. intros i j a b Hij Ha Hb.
    by apply (StronglySorted_lookup_lt (closerContact target) l i j a b). }
  revert round prevContactList.
  induction fuel as [|fuel IH]; intros round prev; [done|].
  cbn [findNodeLoop].
  destruct (findNodeRound (network round prev) prev target)
    as [next|l| |] eqn:Hr; try done.
  - intros Hfound.
    destruct (findNodeRound_strict _ _ _ next (or_introl Hr)) as [->|Hnext];
      [by apply (IH (S round) prev)|].
    destruct (IH (S round) next Hfound) as [->|Hgood]; [|by right].
    right. by apply Hshape.
  - intros [= <-].
    destruct (findNodeRound_strict _ _ _ l (or_intror Hr)) as [->|Hl];
      [by left|right; by apply Hshape].
Qed.

Lemma findNodeLoop_result_shape_witness :
  findNodeLoop 2 demoNetwork 0 [mkContact 1 8] (mkID 0)
    = Found [mkContact 3 6] ∧
  (length [mkContact 3 6] ≤ 3)%nat.
Proof.
  assert (findNodeLoop 2 demoNetwork 0 [mkContact 1 8] (mkID 0)
          = Found [mkContact 3 6]) as Hrun by reflexivity.
  split; [exact Hrun|].
  destruct (findNodeLoop_result_shape 2 demoNetwork 0 [mkContact 1 8]
              (mkID 0) [mkContact 3 6] Hrun) as [Hsame|[Hlen _]];
    [discriminate|exact Hlen].
Defined.

(** ** More on the pending table *)

(** X15.  Registering an absent identifier and then retrieving it hands
    back the channel that [Add] returned and leaves the map as it was
    before the two calls, as does cancelling with [DropChan]; [Add] does
    not touch the entries of other identifiers. *)
Theorem Add_RetrieveChan_round_trip (id : KadID) (tb : table) :
  content tb !! id = None →
  ∃ ch tb1 tb2,
    Add id tb = (ch, None, tb1) ∧
    RetrieveChan id tb1 = (Some ch, None, tb2) ∧
    DropChan id tb1 = tb2 ∧
    content tb2 = content tb ∧
    ∀ id', id' ≠ id → content tb1 !! id' = content tb !! id'.
Proof.
  intros Hnone. unfold Add. rewrite Hnone.
  eexists _, _, _. split; [done|].
  unfold RetrieveChan, DropChan. simpl. rewrite lookup_insert_eq.
  split; [done|]. split; [done|].
  split; [by apply delete_insert_id|].
  intros id' Hne. by apply lookup_insert_ne.
Qed.

Lemma Add_RetrieveChan_round_trip_witness :
  ∃ ch tb1 tb2,
    Add (mkID 7) NewTable = (ch, None, tb1) ∧
    RetrieveChan (mkID 7) tb1 = (Some ch, None, tb2) ∧
    content tb2 = content NewTable.
Proof.
  destruct (Add_RetrieveChan_round_trip (mkID 7) NewTable eq_refl)
    as (ch & tb1 & tb2 & HAdd & HRet & _ & Hsame & _).
  by exists ch, tb1, tb2.
Defined.

Lemma runOp_channelsDistinct (op : tableOp) (tb : table) :
  tableWf tb → channelsDistinct tb → channelsDistinct (runOp op tb).
Proof.
  intros Hwf Hinj id1 id2 ch.
  destruct op as [id|id|id]; simpl; unfold Add, RetrieveChan, DropChan;
    destruct (content tb !! id) eqn:Hid; simpl.
  all: try apply Hinj.
  all: try (intros [_ H1]%lookup_delete_Some [_ H2]%lookup_delete_Some;
            by apply (Hinj _ _ ch)).
  intros [[<- <-]|[Hn1 H1]]%lookup_insert_Some
         [[<- E]|[Hn2 H2]]%lookup_insert_Some; try done.
  - apply Hwf in H2. lia.
  - subst ch. apply Hwf in H1. lia.
  - by apply (Hinj _ _ ch).
Qed.

Lemma runOps_invariant (ops : list tableOp) (tb : table) :
  tableWf tb → channelsDistinct tb →
  tableWf (runOps ops tb) ∧ channelsDistinct (runOps ops tb).
Proof.
  revert tb. induction ops as [|op ops IH]; intros tb Hwf Hinj; [done|].
  apply IH; [by apply runOp_tableWf|by apply runOp_channelsDistinct].
Qed.

(** X16.  Whatever sequence of [Add], [RetrieveChan] and [DropChan] calls a
    new table goes through, two pending identifiers never share a waiter
    channel. *)
Theorem pending_channels_distinct (ops : list tableOp) (id1 id2 : KadID)
    (ch : chan) :
  content (runOps ops NewTable) !! id1 = Some ch →
  content (runOps ops NewTable) !! id2 = Some ch →
  id1 = id2.
Proof.
  apply (runOps_invariant ops NewTable); [apply NewTable_tableWf|].
  intros i1 i2 c. simpl. by rewrite lookup_empty.
Qed.

Lemma pending_channels_distinct_witness :
  content (runOps [OpAdd (mkID 1); OpAdd (mkID 2); OpRetrieveChan (mkID 1);
                   OpAdd (mkID 3)] NewTable) !! mkID 3 = Some 2%nat ∧
  content (runOps [OpAdd (mkID 1); OpAdd (mkID 2); OpRetrieveChan (mkID 1);
                   OpAdd (mkID 3)] NewTable) !! mkID 2 = Some 1%nat ∧
  mkID 3 = mkID 3.
Proof.
  split; [vm_compute; reflexivity|]. split; [vm_compute; reflexivity|].
  apply (pending_channels_distinct
           [OpAdd (mkID 1); OpAdd (mkID 2); OpRetrieveChan (mkID 1);
            OpAdd (mkID 3)] (mkID 3) (mkID 3) 2%nat);
    vm_compute; reflexivity.
Defined.

(** X17.  The response to a request finds the request's waiter: after
    [Send] has registered a new identifier and emitted the frame under it,
    [route] hands a response frame with that identifier to the channel that
    [Add] made for the request and leaves the pending map as it was before
    the request; a response with an identifier that is not pending is
    discarded and leaves the request's waiter in place. *)
Theorem Send_route_correlation (rpc reply stray : RPC.t) (fresh : KadID)
    (events : list awaitEvent) (net : Network) :
  RPC.response rpc = false →
  content (tab net) !! fresh = None →
  RPC.response reply = true → RPC.id reply = fresh →
  RPC.response stray = true → RPC.id stray ≠ fresh →
  content (tab net) !! RPC.id stray = None →
  ∃ net2,
    last (sender (Send rpc fresh events net).2)
      = Some (RPC.withID rpc fresh) ∧
    route reply (Send rpc fresh events net).2
      = (Delivered (Add fresh (tab net)).1.1 reply fresh, net2) ∧
    content (tab net2) = content (tab net) ∧
    route stray (Send rpc fresh events net).2
      = (LoggedAndDiscarded NoMatchingRPCId, (Send rpc fresh events net).2).
Proof.
  intros Hreq Hnone Hresp Hid Hstray Hne Hsnone.
  unfold Send. rewrite Hreq. cbn [RPC.withID RPC.id].
  unfold Add. rewrite Hnone. cbn [fst snd sender tab].
  eexists. split; [by rewrite last_snoc|]. split; [|split].
  - unfold route, RetrieveChan. rewrite Hresp, Hid. cbn [tab content].
    by rewrite lookup_insert_eq.
  - cbn [tab content]. by apply delete_insert_id.
  - apply route_absent; [done|]. cbn [tab content].
    by rewrite lookup_insert_ne.
Qed.

Lemma Send_route_correlation_witness :
  ∃ net2,
    route (RPC.withID pingReply (mkID 9))
      (Send pingRequest (mkID 9) [] net0).2
    = (Delivered 0%nat (RPC.withID pingReply (mkID 9)) (mkID 9), net2) ∧
    content (tab net2) = content (tab net0).
Proof.
  destruct (Send_route_correlation pingRequest
              (RPC.withID pingReply (mkID 9)) pingReply (mkID 9) [] net0)
    as (net2 & _ & Hroute & Hsame & _);
    [reflexivity|reflexivity|reflexivity|reflexivity|reflexivity|
     discriminate|reflexivity|].
  by exists net2.
Defined.

(** ** The registry of the simulated network *)

Lemma firstFree_Some `{Countable K} {V : Type} (m : gmap K V)
    (draws : list K) (x : K) :
  firstFree m draws = Some x →
  m !! x = None ∧
  ∃ taken rest, draws = taken ++ x :: rest ∧
                Forall (λ y, is_Some (m !! y)) taken.
Proof.
  induction draws as [|y draws IH]; [done|]. simpl.
  destruct (m !! y) eqn:Hy.
  - intros (Hx & taken & rest & -> & Htaken)%IH. split; [done|].
    exists (y :: taken), rest. split; [done|].
    constructor; [by rewrite Hy|done].
  - intros [= <-]. split; [done|]. by exists [], draws.
Qed.

Lemma firstFree_None `{Countable K} {V : Type} (m : gmap K V)
    (draws : list K) :
  firstFree m draws = None ↔ Forall (λ y, is_Some (m !! y)) draws.
Proof.
  induction draws as [|y draws IH]; [done|]. simpl.
  destruct (m !! y) eqn:Hy.
  - rewrite IH. split; [intros; constructor; by rewrite ?Hy|].
    by intros [_ ?]%Forall_cons.
  - split; [done|]. intros [[? Hs] _]%Forall_cons. by rewrite Hy in Hs.
Qed.

Lemma filter_all {A : Type} (P : A → Prop) `{∀ x, Decision (P x)}
    (l : list A) :
  Forall P l → filter P l = l.
Proof.
  induction 1 as [|x l Hx _ IH]; [done|].
  rewrite filter_cons_True by done. by rewrite IH.
Qed.

Lemma delete_first_filter (node : Contact) (l : list Contact) (i : nat)
    (c : Contact) :
  NoDup l → list_find (λ c, c = node) l = Some (i, c) →
  delete i l = filter (λ c, c ≠ node) l.
Proof.
  revert i. induction l as [|y l IH]; intros i Hnd Hfind; [done|].
  apply NoDup_cons in Hnd as [Hy Hnd]. simpl in Hfind.
  destruct (decide (y = node)) as [->|Hne].
  - injection Hfind as <- <-. simpl.
    rewrite filter_cons_False by (by intros ?).
    symmetry. apply filter_all, Forall_forall. by intros x Hx ->.
  - destruct (list_find _ l) as [[j z]|] eqn:Hl; [|done].
    injection Hfind as <- <-. simpl.
    rewrite filter_cons_True by done. f_equal. by apply IH.
Qed.

Lemma elem_of_fmap_snoc {A B : Type} (f : A → B) (l : list A) (x : A)
    (y : B) :
  y ∈ f <$> (l ++ [x]) ↔ y = f x ∨ y ∈ f <$> l.
Proof.
  rewrite fmap_app, elem_of_app. simpl. rewrite list_elem_of_singleton.
  tauto.
Qed.

Lemma NoDup_fmap_snoc {A B : Type} (f : A → B) (l : list A) (x : A) :
  NoDup (f <$> l) → f x ∉ f <$> l → NoDup (f <$> (l ++ [x])).
Proof.
  intros Hnd Hx. rewrite fmap_app. apply NoDup_app.
  split; [done|]. split; [|apply NoDup_singleton].
  intros y Hy ->%list_elem_of_singleton. done.
Qed.

Lemma is_Some_insert_iff `{Countable K} {V : Type} (m : gmap K V)
    (k k' : K) (v : V) :
  is_Some (<[k := v]> m !! k') ↔ k' = k ∨ is_Some (m !! k').
Proof.
  destruct (decide (k = k')) as [->|Hne].
  - rewrite lookup_insert_eq. split; [by left|by eexists].
  - rewrite lookup_insert_ne by done. split; [by right|].
    by intros [->|?].
Qed.

Lemma is_Some_delete_iff `{Countable K} {V : Type} (m : gmap K V)
    (k k' : K) :
  is_Some (delete k m !! k') ↔ k' ≠ k ∧ is_Some (m !! k').
Proof.
  unfold is_Some. setoid_rewrite lookup_delete_Some.
  split; [intros (v & Hne & Hv)|intros (Hne & v & Hv)]; eauto.
Qed.

Lemma registryWf_empty (dropPercent : Qc) (debugMode : bool) :
  registryWf (mkSimnet ∅ [] dropPercent debugMode, spawned.mk ∅ ∅).
Proof.
  constructor; simpl; try apply NoDup_nil_2; intros a;
    rewrite ?lookup_empty, ?elem_of_nil; split;
    try done; by intros [? ?].
Qed.

Lemma registryWf_snoc (simnet : Simnet) (sp : spawned.t) (id : KadID)
    (ip : Addr) (nodeReceiver : chan) :
  registryWf (simnet, sp) →
  spawned.id sp !! id = None → spawned.ip sp !! ip = None →
  registryWf
    (mkSimnet (<[ip := nodeReceiver]> (chanTable simnet))
              (nodes simnet ++ [NewContact ip id])
              (dropPercent simnet) (debug simnet),
     spawned.mk (<[id := true]> (spawned.id sp))
                (<[ip := true]> (spawned.ip sp))).
Proof.
  intros [Hbox Hip Hid Hipd Hidd] Hidn Hipn. simpl in *.
  assert (id ∉ ID <$> nodes simnet) as Hidfresh.
  { intros Hin%Hid. rewrite Hidn in Hin. by destruct Hin. }
  assert (ip ∉ IP <$> nodes simnet) as Hipfresh.
  { intros Hin%Hip. rewrite Hipn in Hin. by destruct Hin. }
  constructor; simpl.
  - intros a. rewrite !is_Some_insert_iff, Hbox. done.
  - intros a. rewrite is_Some_insert_iff, elem_of_fmap_snoc, Hip. done.
  - intros a. rewrite is_Some_insert_iff, elem_of_fmap_snoc, Hid. done.
  - by apply NoDup_fmap_snoc.
  - by apply NoDup_fmap_snoc.
Qed.

(** X18.  On a registry whose mailboxes, key maps and node list agree,
    [GenerateRandomNode] goes on drawing exactly when every identifier at
    hand or every address at hand belongs to a listed node.  Otherwise it
    registers a node whose identifier is the first drawn one that no listed
    node has, and likewise its address; the node is appended to the list,
    its address gets the new mailbox, the other mailboxes stay, and the
    registry agrees again. *)
Theorem GenerateRandomNode_registers_fresh (ids : list KadID)
    (ips : list Addr) (nodeReceiver : chan) (reg : registry) :
  registryWf reg →
  (GenerateRandomNode ids ips nodeReceiver reg = None ↔
     Forall (λ id, id ∈ ID <$> nodes reg.1) ids ∨
     Forall (λ ip, ip ∈ IP <$> nodes reg.1) ips) ∧
  ∀ node reg',
    GenerateRandomNode ids ips nodeReceiver reg = Some (node, reg') →
    registryWf reg' ∧
    (∃ taken rest, ids = taken ++ ID node :: rest ∧
                   Forall (λ id, id ∈ ID <$> nodes reg.1) taken) ∧
    (∃ taken rest, ips = taken ++ IP node :: rest ∧
                   Forall (λ ip, ip ∈ IP <$> nodes reg.1) taken) ∧
    (ID node ∉ ID <$> nodes reg.1) ∧
    (IP node ∉ IP <$> nodes reg.1) ∧
    nodes reg'.1 = nodes reg.1 ++ [node] ∧
    chanTable reg'.1 !! IP node = Some nodeReceiver ∧
    ∀ ip, ip ≠ IP node → chanTable reg'.1 !! ip = chanTable reg.1 !! ip.
Proof.
  destruct reg as [simnet sp]. intros Hwf.
  pose proof Hwf as [Hbox Hip Hid Hipd Hidd]. simpl in *. split.
  - destruct (firstFree (spawned.id sp) ids) as [id|] eqn:Hfid.
    + destruct (firstFree (spawned.ip sp) ips) as [ip|] eqn:Hfip.
      * split; [done|]. intros [Hall|Hall]; exfalso.
        -- assert (firstFree (spawned.id sp) ids = None) as Hn; [|congruence].
           apply firstFree_None. eapply Forall_impl; [exact Hall|].
           intros x. apply Hid.
        -- assert (firstFree (spawned.ip sp) ips = None) as Hn; [|congruence].
           apply firstFree_None. eapply Forall_impl; [exact Hall|].
           intros x. apply Hip.
      * split; [intros _|done]. right.
        apply firstFree_None in Hfip. eapply Forall_impl; [exact Hfip|].
        intros x. apply Hip.
    + split; [intros _|done]. left.
      apply firstFree_None in Hfid. eapply Forall_impl; [exact Hfid|].
      intros x. apply Hid.
  - intros node reg' Hgen.
    destruct (firstFree (spawned.id sp) ids) as [id|] eqn:Hfid; [|done].
    destruct (firstFree (spawned.ip sp) ips) as [ip|] eqn:Hfip; [|done].
    injection Hgen as <- <-. simpl.
    apply firstFree_Some in Hfid as (Hidn & tid & rid & -> & Htid).
    apply firstFree_Some in Hfip as (Hipn & tip & rip & -> & Htip).
    assert (id ∉ ID <$> nodes simnet) as Hidfresh.
    { intros Hin%Hid. rewrite Hidn in Hin. by destruct Hin. }
    assert (ip ∉ IP <$> nodes simnet) as Hipfresh.
    { intros Hin%Hip. rewrite Hipn in Hin. by destruct Hin. }
    split; [|split; [|split; [|split; [|split; [|split; [|split]]]]]];
      try done.
    + by apply registryWf_snoc.
    + exists tid, rid. split; [done|].
      eapply Forall_impl; [exact Htid|]. intros x. apply Hid.
    + exists tip, rip. split; [done|].
      eapply Forall_impl; [exact Htip|]. intros x. apply Hip.
    + by rewrite lookup_insert_eq.
    + intros a Hne. by rewrite lookup_insert_ne.
Qed.

Lemma GenerateRandomNode_registers_fresh_witness :
  ∃ node reg',
    GenerateRandomNode [mkID 1; mkID 2] [mkIP 1; mkIP 1; mkIP 3] 1%nat
      (mkSimnet {[mkIP 1 := 0%nat]} [mkContact 1 1] 0%Qc false,
       spawned.mk {[mkID 1 := true]} {[mkIP 1 := true]})
    = Some (node, reg') ∧
    node = NewContact (mkIP 3) (mkID 2) ∧ registryWf reg'.
Proof.
  eexists _, _. split; [vm_compute; reflexivity|]. split; [reflexivity|].
  eapply (GenerateRandomNode_registers_fresh
            [mkID 1; mkID 2] [mkIP 1; mkIP 1; mkIP 3] 1%nat
            (mkSimnet {[mkIP 1 := 0%nat]} [mkContact 1 1] 0%Qc false,
             spawned.mk {[mkID 1 := true]} {[mkIP 1 := true]}));
    [|vm_compute; reflexivity].
  apply (registryWf_snoc (mkSimnet ∅ [] 0%Qc false) (spawned.mk ∅ ∅)
           (mkID 1) (mkIP 1) 0%nat);
    [apply registryWf_empty|reflexivity|reflexivity].
Defined.

Lemma NoDup_fmap_eq {A B : Type} (f : A → B) (l : list A) (x y : A) :
  NoDup (f <$> l) → x ∈ l → y ∈ l → f x = f y → x = y.
Proof.
  induction l as [|z l IH]; simpl; [by intros _ ?%elem_of_nil|].
  intros [Hz Hnd]%NoDup_cons [->|Hx]%elem_of_cons [->|Hy]%elem_of_cons Hf;
    [done| | |by apply IH].
  - destruct Hz. rewrite Hf. by apply list_elem_of_fmap_2.
  - destruct Hz. rewrite <- Hf. by apply list_elem_of_fmap_2.
Qed.

Lemma randomNode_elem_of (simnet : Simnet) (x : N) (c : Contact) :
  randomNode simnet x = Some c → c ∈ nodes simnet.
Proof.
  unfold randomNode. destruct (RandU32 0 _ x) as [index err].
  apply list_elem_of_lookup_2.
Qed.

Lemma ShutdownNode_nodes (node : Contact) (reg : registry) :
  NoDup (nodes reg.1) →
  nodes (ShutdownNode node reg).1 = filter (λ c, c ≠ node) (nodes reg.1).
Proof.
  destruct reg as [simnet sp]. simpl. intros Hnd.
  destruct (list_find _ (nodes simnet)) as [[i c]|] eqn:Hfind.
  - by eapply delete_first_filter.
  - symmetry. apply filter_all. by apply list_find_None in Hfind.
Qed.

(** X19.  On a registry whose mailboxes, key maps and node list agree,
    [ShutdownNode] of a listed node removes that node and nothing else: the
    list keeps the other nodes in their order, the node's address has no
    mailbox any more, the other nodes keep theirs, no draw of [randomNode]
    picks the node, and the registry agrees again. *)
Theorem ShutdownNode_unregisters (node : Contact) (reg : registry) :
  registryWf reg → node ∈ nodes reg.1 →
  registryWf (ShutdownNode node reg) ∧
  nodes (ShutdownNode node reg).1 = filter (λ c, c ≠ node) (nodes reg.1) ∧
  chanTable (ShutdownNode node reg).1 !! IP node = None ∧
  (∀ c, c ∈ nodes reg.1 → c ≠ node →
     chanTable (ShutdownNode node reg).1 !! IP c
     = chanTable reg.1 !! IP c) ∧
  ∀ x, randomNode (ShutdownNode node reg).1 x ≠ Some node.
Proof.
  intros [Hbox Hip Hid Hipd Hidd] Hin.
  pose proof (ShutdownNode_nodes node reg (NoDup_fmap_1 _ _ Hipd)) as Hnodes.
  assert (∀ c, c ∈ nodes reg.1 → c ≠ node → IP c ≠ IP node) as Hipne.
  { intros c Hc Hne Heq. by apply Hne, (NoDup_fmap_eq IP (nodes reg.1)). }
  assert (∀ c, c ∈ nodes reg.1 → c ≠ node → ID c ≠ ID node) as Hidne.
  { intros c Hc Hne Heq. by apply Hne, (NoDup_fmap_eq ID (nodes reg.1)). }
  split; [|split; [done|split; [|split]]].
  - constructor; rewrite ?Hnodes; destruct reg as [simnet sp];
      simpl in *.
    + intros a. rewrite !is_Some_delete_iff, Hbox. done.
    + intros a. rewrite is_Some_delete_iff, Hip, !list_elem_of_fmap.
      split.
      * intros (Hne & c & -> & Hc). exists c. split; [done|].
        apply list_elem_of_filter. split; [|done]. by intros ->.
      * intros (c & -> & [Hne Hc]%list_elem_of_filter).
        split; [by apply Hipne|]. by exists c.
    + intros a. rewrite is_Some_delete_iff, Hid, !list_elem_of_fmap.
      split.
      * intros (Hne & c & -> & Hc). exists c. split; [done|].
        apply list_elem_of_filter. split; [|done]. by intros ->.
      * intros (c & -> & [Hne Hc]%list_elem_of_filter).
        split; [by apply Hidne|]. by exists c.
    + eapply sublist_NoDup; [exact Hipd|].
      apply fmap_sublist, sublist_filter.
    + eapply sublist_NoDup; [exact Hidd|].
      apply fmap_sublist, sublist_filter.
  - destruct reg as [simnet sp]. simpl. apply lookup_delete_eq.
  - intros c Hc Hne. destruct reg as [simnet sp]. simpl.
    apply lookup_delete_ne. intros Heq. by apply (Hipne c).
  - intros x Hx%randomNode_elem_of. rewrite Hnodes in Hx.
    by apply list_elem_of_filter in Hx as [Hne _].
Qed.

Lemma twoNodes_registryWf : registryWf twoNodes.
Proof.
  apply (registryWf_snoc oneNode.1 oneNode.2 (mkID 12) (mkIP 2) 1%nat);
    [|reflexivity|reflexivity].
  apply (registryWf_snoc (mkSimnet ∅ [] 0%Qc false) (spawned.mk ∅ ∅)
           (mkID 11) (mkIP 1) 0%nat);
    [apply registryWf_empty|reflexivity|reflexivity].
Qed.

Lemma ShutdownNode_unregisters_witness :
  nodes (ShutdownNode (mkContact 1 11) twoNodes).1 = [mkContact 2 12] ∧
  chanTable (ShutdownNode (mkContact 1 11) twoNodes).1 !! mkIP 1 = None ∧
  registryWf (ShutdownNode (mkContact 1 11) twoNodes).
Proof.
  split; [vm_compute; reflexivity|]. split; [vm_compute; reflexivity|].
  apply (ShutdownNode_unregisters (mkContact 1 11) twoNodes);
    [apply twoNodes_registryWf|].
  apply list_elem_of_here.
Defined.

(** X20.  On a registry whose mailboxes, key maps and node list agree,
    [Route] never runs into the index panic of [randomNode]; it finds no
    mailbox exactly when no listed node has the receiver's address; and a
    frame it hands over goes to the mailbox of a listed node with that
    address, under the identifier, the tag and the receiver it came with,
    any contacts put into an [ENTER] frame being listed nodes. *)
Theorem Route_on_registry (reg : registry) (rpc : RPC.t) (x1 x2 : N)
    (r : Qc) :
  registryWf reg →
  Route reg.1 rpc x1 x2 r ≠ RoutePanics ∧
  (Route reg.1 rpc x1 x2 r = NoMailbox ↔
     RPC.receiver rpc ∉ IP <$> nodes reg.1) ∧
  ∀ routeChan rpc',
    Route reg.1 rpc x1 x2 r = SentTo routeChan rpc' →
    chanTable reg.1 !! RPC.receiver rpc = Some routeChan ∧
    (∃ c, c ∈ nodes reg.1 ∧ IP c = RPC.receiver rpc) ∧
    RPC.id rpc' = RPC.id rpc ∧ RPC.cmd rpc' = RPC.cmd rpc ∧
    RPC.receiver rpc' = RPC.receiver rpc ∧
    (RPC.cmd rpc ≠ ENTER → rpc' = rpc) ∧
    (RPC.cmd rpc = ENTER →
       Forall (λ c, c ∈ nodes reg.1) (RPC.foundNodes rpc')).
Proof.
  intros [Hbox Hip Hid Hipd Hidd]. destruct reg as [simnet sp].
  simpl in *. unfold Route.
  destruct (chanTable simnet !! RPC.receiver rpc) as [ch|] eqn:Hch.
  - assert (RPC.receiver rpc ∈ IP <$> nodes simnet) as Hin.
    { apply Hip, Hbox. by rewrite Hch. }
    assert (nodes simnet ≠ []) as Hne.
    { intros Hnil. rewrite Hnil in Hin. by apply elem_of_nil in Hin. }
    destruct (randomNode_is_Some simnet x1 Hne) as (n1 & Hn1 & Hin1).
    destruct (randomNode_is_Some simnet x2 Hne) as (n2 & Hn2 & Hin2).
    rewrite Hn1, Hn2.
    pose proof Hin as (c & Hc & Hcin)%list_elem_of_fmap.
    split; [|split].
    + destruct (decide (RPC.cmd rpc = ENTER)), (DropRoll simnet r); done.
    + split; [|done].
      destruct (decide (RPC.cmd rpc = ENTER)), (DropRoll simnet r); done.
    + intros routeChan rpc'.
      destruct (decide (RPC.cmd rpc = ENTER)) as [Hcmd|Hcmd],
        (DropRoll simnet r); try done; intros [= <- <-];
        (split; [done|]); (split; [by exists c|]); simpl;
        repeat split; try done.
      by repeat constructor.
  - split; [done|]. split; [|done]. split; [|done]. intros _ Hin.
    apply Hip, Hbox in Hin. rewrite Hch in Hin. by destruct Hin.
Qed.

Lemma Route_on_registry_witness :
  Route twoNodes.1 enterRequest 4 (2 ^ 32 - 1) 0%Qc ≠ RoutePanics.
Proof.
  apply (Route_on_registry twoNodes enterRequest 4 (2 ^ 32 - 1) 0%Qc).
  apply twoNodes_registryWf.
Defined.

(** X21.  [NewServer] goes on drawing exactly when it has no identifier or
    no address at hand.  Otherwise the master node takes the first of each;
    the registry lists the master node alone, holds its mailbox alone,
    keeps the two settings, and agrees; and every [ENTER] frame the new
    server hands over carries the master node twice. *)
Theorem NewServer_registry (debugMode : bool) (percent : Qc)
    (ids : list KadID) (ips : list Addr) (nodeReceiver : chan) :
  (NewServer debugMode percent ids ips nodeReceiver = None ↔
     ids = [] ∨ ips = []) ∧
  ∀ master reg,
    NewServer debugMode percent ids ips nodeReceiver = Some (master, reg) →
    registryWf reg ∧
    head ids = Some (ID master) ∧ head ips = Some (IP master) ∧
    nodes reg.1 = [master] ∧
    chanTable reg.1 = {[IP master := nodeReceiver]} ∧
    dropPercent reg.1 = percent ∧ debug reg.1 = debugMode ∧
    ∀ rpc x1 x2 r routeChan rpc',
      RPC.cmd rpc = ENTER →
      Route reg.1 rpc x1 x2 r = SentTo routeChan rpc' →
      routeChan = nodeReceiver ∧ RPC.receiver rpc = IP master ∧
      RPC.foundNodes rpc' = [master; master] ∧ RPC.response rpc' = true.
Proof.
  unfold NewServer, GenerateRandomNode.
  destruct ids as [|id ids], ips as [|ip ips];
    cbn [firstFree spawned.id spawned.ip]; rewrite ?lookup_empty;
    try (split; [split; [auto|done]|done]).
  split; [split; [done|by intros [?|?]]|].
  intros master reg [= <- <-]. cbn [fst snd IP ID head nodes chanTable
                                     dropPercent debug app].
  split.
  { apply (registryWf_snoc (mkSimnet ∅ [] percent debugMode)
             (spawned.mk ∅ ∅) id ip nodeReceiver);
      [apply registryWf_empty|done|done]. }
  do 6 (split; [done|]).
  intros rpc x1 x2 r routeChan rpc' Hcmd. unfold Route.
  cbn [chanTable].
  destruct (decide (RPC.receiver rpc = ip)) as [->|Hne].
  - rewrite lookup_insert_eq.
    set (simnet := mkSimnet _ _ _ _).
    assert (∀ x, randomNode simnet x = Some (NewContact ip id)) as Hrand.
    { intros x.
      destruct (randomNode_is_Some simnet x) as (c & -> & Hc); [done|].
      by apply list_elem_of_singleton in Hc as ->. }
    rewrite !Hrand. rewrite decide_True by done.
    destruct (DropRoll simnet r); [done|]. by intros [= <- <-].
  - rewrite lookup_insert_ne by done. by rewrite lookup_empty.
Qed.

(** X22.  With a roll [r] in the range of [rand.Float32()], [DropRoll]
    drops exactly when the roll is below the configured fraction: the
    early return at zero changes nothing.  So a fraction of zero or below
    never drops, a fraction of one or above always drops, and a frame
    dropped at one fraction is dropped at every larger one. *)
Theorem DropRoll_threshold (simnet : Simnet) (r : Qc) :
  (0 ≤ r)%Qc → (r < 1)%Qc →
  (DropRoll simnet r = true ↔ (r < dropPercent simnet)%Qc) ∧
  ((dropPercent simnet ≤ 0)%Qc → DropRoll simnet r = false) ∧
  ((1 ≤ dropPercent simnet)%Qc → DropRoll simnet r = true) ∧
  ∀ simnet',
    (dropPercent simnet ≤ dropPercent simnet')%Qc →
    DropRoll simnet r = true → DropRoll simnet' r = true.
Proof.
  intros H0 H1.
  assert (∀ s, DropRoll s r = true ↔ (r < dropPercent s)%Qc) as Hiff.
  { intros s. unfold DropRoll. destruct (decide (dropPercent s = 0%Qc)) as [->|Hne].
    - split; [done|]. intros Hlt. by apply Qcle_not_lt in H0.
    - apply bool_decide_eq_true. }
  split; [apply Hiff|]. split; [|split].
  - intros Hle. apply not_true_is_false. rewrite Hiff. intros Hlt.
    apply (Qcle_not_lt _ _ H0). by eapply Qclt_le_trans.
  - intros Hle. apply Hiff. by eapply Qclt_le_trans.
  - intros simnet' Hle. rewrite !Hiff. intros Hlt. by eapply Qclt_le_trans.
Qed.

Lemma DropRoll_threshold_witness :
  DropRoll (mkSimnet ∅ [] (Q2Qc (1 # 4)) false) (Q2Qc (1 # 8)) = true.
Proof.
  destruct (DropRoll_threshold (mkSimnet ∅ [] (Q2Qc (1 # 4)) false)
              (Q2Qc (1 # 8))) as [Hiff _]; [discriminate|reflexivity|].
  apply Hiff. reflexivity.
Defined.

(** ** Record lookup *)

(** X23.  What [FindAccount] does is decided by the number of close nodes
    alone, whatever the replies say: with none it returns the error at
    once; with one it returns the error once the query's [Send] has
    returned, and waits as long as that [Send] waits; with two or more it
    never returns. *)
Theorem FindAccount_outcome (closeNodes : list Contact)
    (request : Addr → RPC.t) (fresh : Addr → KadID)
    (events : Addr → list awaitEvent) (net : Network) (accID : KadID) :
  FindAccount closeNodes
    (λ ip, (Send (request ip) (fresh ip) (events ip) net).1) accID
  = match closeNodes with
    | [] => Returns ([], Some (AccountNotLocated accID))
    | [n] =>
        match (Send (request (IP n)) (fresh (IP n)) (events (IP n)) net).1
        with
        | Blocks => Blocks
        | Returns _ => Returns ([n], Some (AccountNotLocated accID))
        end
    | _ :: _ :: _ => Blocks
    end.
Proof.
  unfold FindAccount.
  destruct closeNodes as [|n1 [|n2 rest]]; [done| |]; cbn [queryAll].
  - destruct (Send (request (IP n1)) _ _ net).1 as [[res [e|]]|] eqn:H1;
      [by apply Send_error_free in H1|done|done].
  - destruct (Send (request (IP n1)) _ _ net).1 as [[res1 [e|]]|] eqn:H1;
      [by apply Send_error_free in H1| |done].
    destruct (Send (request (IP n2)) _ _ net).1 as [[res2 [e|]]|] eqn:H2;
      [by apply Send_error_free in H2| |done].
    done.
Qed.
